(** * spendingCat: rule compilation and match resolution

    A shallow embedding of the categorisation core of [main.py] and
    [categorize_trans.py]: [make_loose_regex], [load_rules_json] and
    [best_match], together with the fragment of Python's [re] and [str]
    behaviour those functions rely on.

    Scope of the character model.  A Python [str] is a sequence of code
    points; here a character is one of the code points U+0000..U+00FF
    (Rocq's [ascii], read as Latin-1).  The tables below ([is_space],
    [is_word], [lower]) are Python's own, restricted to that range.

    The two source files hold the same three functions; they differ in the
    bracket class of the lookarounds ([[A-Z0-9]] against [[A-Za-z0-9]], both
    under [re.I]) and in how [load_rules_json] is written (loop against
    comprehension).  The functions below take the file as a parameter where
    the text differs, and every property is stated for both. *)

From Stdlib Require Import List Ascii String ZArith NArith Lia Bool.
Import ListNotations.

Set Implicit Arguments.

(** ** Text *)

Definition str := list ascii.

Coercion list_ascii_of_string : string >-> list.

Module Chars.

Definition code (c : ascii) : N := N_of_ascii c.

Definition in_range (lo hi : N) (c : ascii) : bool :=
  ((lo <=? code c) && (code c <=? hi))%N.

(** [str.isspace], the characters removed by [str.strip()]. *)
Definition is_space (c : ascii) : bool :=
  in_range 9 13 c || in_range 28 32 c
  || in_range 133 133 c || in_range 160 160 c.

(** The [re] category [\w] on [str] patterns: [str.isalnum] or ['_']. *)
Definition is_word (c : ascii) : bool :=
  in_range 48 57 c || in_range 65 90 c || in_range 95 95 c
  || in_range 97 122 c || in_range 170 170 c || in_range 178 179 c
  || in_range 181 181 c || in_range 185 186 c || in_range 188 190 c
  || in_range 192 214 c || in_range 216 246 c || in_range 248 255 c.

(** The letters A-Z, a-z and the digits 0-9. *)
Definition is_alnum (c : ascii) : bool :=
  in_range 48 57 c || in_range 65 90 c || in_range 97 122 c.

(** Simple lower-casing of one code point, as the [re] engine applies it
    under [re.I]. *)
Definition lower (c : ascii) : ascii :=
  if in_range 65 90 c || in_range 192 214 c || in_range 216 222 c
  then ascii_of_N (code c + 32)
  else c.

(** Two characters that [re.I] does not tell apart. *)
Definition eq_I (c d : ascii) : bool := Ascii.eqb (lower c) (lower d).

Definition all_chars : list ascii := map ascii_of_nat (seq 0 256).

End Chars.
Import Chars.

(** ** The fragment of [re] that [make_loose_regex] produces *)

Module Re.

(** A bracket class such as [[A-Z0-9]]: a list of inclusive ranges. *)
Definition charset := list (ascii * ascii).

Definition range_chars (r : ascii * ascii) : list ascii :=
  let lo := nat_of_ascii (fst r) in
  let hi := nat_of_ascii (snd r) in
  map ascii_of_nat (seq lo (S hi - lo)).

(** Membership in a class under [re.I]: the engine lower-cases the members
    of the class at compile time and the subject character at match time. *)
Definition in_charset_I (cs : charset) (d : ascii) : bool :=
  existsb (fun r => existsb (fun c => eq_I c d) (range_chars r)) cs.

Inductive node : Type :=
| Literal (c : ascii)          (* an escaped character *)
| NotWordStar                  (* \W*, greedy *)
| NotBehind (cs : charset)     (* (?<![...]) *)
| NotAhead (cs : charset).     (* (?![...])  *)

(** A pattern compiled with [re.I]. *)
Definition Pattern := list node.

(** [match_here p prev s]: the backtracking matcher started at one position;
    [prev] is the character just before that position, [s] the text from
    it on.  The result is the number of characters consumed. *)
Fixpoint match_here (p : Pattern) : option ascii -> str -> option nat :=
  match p with
  | [] => fun _ _ => Some 0
  | Literal c :: p' => fun _ s =>
      match s with
      | d :: s' =>
          if eq_I c d then option_map S (match_here p' (Some d) s') else None
      | [] => None
      end
  | NotWordStar :: p' =>
      fix star (prev : option ascii) (s : str) {struct s} : option nat :=
        match s with
        | d :: s' =>
            if negb (is_word d) then
              match star (Some d) s' with
              | Some n => Some (S n)
              | None => match_here p' prev s
              end
            else match_here p' prev s
        | [] => match_here p' prev s
        end
  | NotBehind cs :: p' => fun prev s =>
      match prev with
      | Some c => if in_charset_I cs c then None else match_here p' prev s
      | None => match_here p' prev s
      end
  | NotAhead cs :: p' => fun prev s =>
      match s with
      | d :: _ => if in_charset_I cs d then None else match_here p' prev s
      | [] => match_here p' prev s
      end
  end.

(** [Pattern.search]: the match at the leftmost position that has one, as
    the pair (start, end). *)
Fixpoint search_from (p : Pattern) (prev : option ascii) (s : str) (i : nat)
  : option (nat * nat) :=
  match match_here p prev s with
  | Some n => Some (i, i + n)
  | None =>
      match s with
      | [] => None
      | d :: s' => search_from p (Some d) s' (S i)
      end
  end.

Definition search (p : Pattern) (s : str) : option (nat * nat) :=
  search_from p None s 0.

(** [re.compile(re.escape(s), re.I)]: every character of [s] literally. *)
Definition escape (s : str) : Pattern := map Literal s.

(** [sep.join(parts)] on pattern text. *)
Fixpoint join (sep : Pattern) (parts : list Pattern) : Pattern :=
  match parts with
  | [] => []
  | [x] => x
  | x :: rest => x ++ sep ++ join sep rest
  end.

(** [re.split(r"[^\w]+", s)]: the pieces between maximal runs of non-word
    characters, empty pieces at the ends included. *)
Fixpoint split_from (s : str) (cur : str) (in_sep : bool) : list str :=
  match s with
  | [] => [cur]
  | c :: s' =>
      if is_word c then split_from s' (cur ++ [c]) false
      else if in_sep then split_from s' [] true
      else cur :: split_from s' [] true
  end.

Definition split_nonword (s : str) : list str := split_from s [] false.

End Re.
Import Re.

(** ** [str.strip()] *)

Fixpoint lstrip (s : str) : str :=
  match s with
  | c :: s' => if is_space c then lstrip s' else s
  | [] => []
  end.

Definition rstrip (s : str) : str := rev (lstrip (rev s)).

Definition strip (s : str) : str := rstrip (lstrip s).

(** ** STEP 2: rule loading *)

(** The two source files differ in the class of the lookarounds. *)
Inductive source_file : Type := main_py | categorize_trans_py.

Definition guard_class (f : source_file) : charset :=
  match f with
  | main_py => [("A", "Z"); ("0", "9")]%char
  | categorize_trans_py => [("A", "Z"); ("a", "z"); ("0", "9")]%char
  end.

Definition nonempty (t : str) : bool :=
  match t with [] => false | _ :: _ => true end.

Definition tokens_of (term : str) : list str :=
  filter nonempty (split_nonword term).

Definition make_loose_regex (f : source_file) (term : str) : Pattern :=
  let term := strip term in
  let tokens := tokens_of term in
  match tokens with
  | [] => escape term
  | _ :: _ =>
      let body := join [NotWordStar] (map escape tokens) in
      [NotBehind (guard_class f)] ++ body ++ [NotAhead (guard_class f)]
  end.

(** *** Python values and exceptions *)

(** What [json.load] returns.  The value of a number plays no role here. *)
#[local] Set Warnings "-register-all".
Inductive json : Type :=
| JNull
| JBool (b : bool)
| JNumber (z : Z)
| JStr (s : string)
| JArr (elems : list json)
| JObj (members : list (string * json)).

Inductive exn : Type :=
| AttributeError      (* e.g. 'int' object has no attribute 'strip' *)
| TypeError.          (* e.g. 'int' object is not iterable *)

(** A computation that returns a value or raises. *)
Definition result (A : Type) : Type := (exn + A)%type.

Definition ret {A} (a : A) : result A := inr a.
Definition raise {A} (e : exn) : result A := inl e.
Definition bind {A B} (m : result A) (k : A -> result B) : result B :=
  match m with
  | inl e => inl e
  | inr a => k a
  end.

Notation "x <- m ;; k" := (bind m (fun x => k))
  (at level 61, m at next level, right associativity).

(** A comprehension or loop body run over a list, left to right, stopping at
    the first exception. *)
Fixpoint mapM {A B} (f : A -> result B) (l : list A) : result (list B) :=
  match l with
  | [] => ret []
  | a :: l' => b <- f a ;; bs <- mapM f l' ;; ret (b :: bs)
  end.

Fixpoint foldM {A S} (f : S -> A -> result S) (l : list A) (s : S) : result S :=
  match l with
  | [] => ret s
  | a :: l' => s' <- f s a ;; foldM f l' s'
  end.

(** A [dict]: keys in insertion order.  [dict_set d k v] is [d[k] = v]. *)
Definition dict (V : Type) : Type := list (string * V).

Fixpoint dict_set {V} (d : dict V) (k : string) (v : V) : dict V :=
  match d with
  | [] => [(k, v)]
  | (k', v') :: d' =>
      if String.eqb k' k then (k, v) :: d' else (k', v') :: dict_set d' k v
  end.

(** [x.items()] *)
Definition items (x : json) : result (list (string * json)) :=
  match x with
  | JObj members => ret members
  | _ => raise AttributeError
  end.

(** [for t in x] *)
Definition iterate (x : json) : result (list json) :=
  match x with
  | JArr elems => ret elems
  | JStr s => ret (map (fun c => JStr (String c EmptyString)) (list_ascii_of_string s))
  | JObj members => ret (map (fun kv => JStr (fst kv)) members)
  | JNull | JBool _ | JNumber _ => raise TypeError
  end.

(** [make_loose_regex(t)] on an arbitrary value: [t.strip()] exists on
    strings only. *)
Definition make_loose_regex_dyn (f : source_file) (t : json) : result Pattern :=
  match t with
  | JStr s => ret (make_loose_regex f s)
  | _ => raise AttributeError
  end.

(** The compiled Rule Set: category -> subcategory -> patterns. *)
Definition RuleSet : Type := dict (dict (list Pattern)).

(** [load_rules_json], from the value [raw] that [json.load] returned.  The
    loop of [main.py] and the comprehension of [categorize_trans.py] build the
    same dictionaries in the same order. *)
Definition load_rules_json (f : source_file) (raw : json) : result RuleSet :=
  cats <- items raw ;;
  foldM (fun (compiled : RuleSet) (entry : string * json) =>
           let (category, subs) := entry in
           ss <- items subs ;;
           inner <- foldM (fun (d : dict (list Pattern)) (e : string * json) =>
                             let (subcat, terms) := e in
                             ts <- iterate terms ;;
                             pats <- mapM (make_loose_regex_dyn f) ts ;;
                             ret (dict_set d subcat pats))
                          ss [] ;;
           ret (dict_set compiled category inner))
        cats [].

(** ** STEP 3: matching logic *)

Definition sentinel : string * string := ("Uncategorized", "Other")%string.

(** The loop state: [(best_len, best_pair)]. *)
Definition best : Type := (Z * (string * string))%type.

(** The body of the innermost loop. *)
Definition consider (desc : str) (cat sub : string) (st : best) (pat : Pattern)
  : best :=
  match search pat desc with
  | Some (m_start, m_end) =>
      let span_len := (Z.of_nat m_end - Z.of_nat m_start)%Z in
      if (span_len >? fst st)%Z then (span_len, (cat, sub)) else st
  | None => st
  end.

Definition best_match_loop (desc : str) (rules : RuleSet) (st : best) : best :=
  fold_left
    (fun st (entry : string * dict (list Pattern)) =>
       let (cat, subs) := entry in
       fold_left
         (fun st (e : string * list Pattern) =>
            let (sub, patterns) := e in
            fold_left (consider desc cat sub) patterns st)
         subs st)
    rules st.

Definition best_match (desc : str) (rules : RuleSet) : string * string :=
  snd (best_match_loop desc rules ((-1)%Z, sentinel)).

(** *** The same function with the Rule Set held in the store

    [rules] is a reference to a dictionary shared with the caller.  The
    store holds that object; a computation may read it and, in general,
    replace it. *)

Module Store.

Record store : Type := { rules_obj : RuleSet }.

Definition M (A : Type) : Type := store -> A * store.

Definition pure {A} (a : A) : M A := fun h => (a, h).
Definition seq {A B} (m : M A) (k : A -> M B) : M B :=
  fun h => let (a, h') := m h in k a h'.
Definition read_rules : M RuleSet := fun h => (rules_obj h, h).
Definition write_rules (r : RuleSet) : M unit :=
  fun _ => (tt, {| rules_obj := r |}).

(** [for x in l: st = body(st, x)] *)
Fixpoint for_each {A S} (l : list A) (body : S -> A -> M S) (st : S) : M S :=
  match l with
  | [] => pure st
  | a :: l' => seq (body st a) (for_each l' body)
  end.

Definition best_match (desc : str) : M (string * string) :=
  seq read_rules (fun rules =>
  seq (for_each rules
         (fun st (entry : string * dict (list Pattern)) =>
            let (cat, subs) := entry in
            for_each subs
              (fun st (e : string * list Pattern) =>
                 let (sub, patterns) := e in
                 for_each patterns
                   (fun st pat => pure (consider desc cat sub st pat)) st)
              st)
         ((-1)%Z, sentinel))
      (fun st => pure (snd st))).

End Store.

(** The triples (category, subcategory, matcher) of a Rule Set, in the order
    in which [best_match] meets them. *)
Definition triples (rules : RuleSet) : list (string * string * Pattern) :=
  flat_map (fun entry : string * dict (list Pattern) =>
              flat_map (fun e : string * list Pattern =>
                          map (fun pat => (fst entry, fst e, pat)) (snd e))
                       (snd entry))
           rules.

Open Scope string_scope.
Open Scope list_scope.

(** ** Notions used in the statements *)

(** The character just before the position reached after reading [pre]. *)
Definition before (prev : option ascii) (pre : str) : option ascii :=
  fold_left (fun _ c => Some c) pre prev.

Definition same_I (tok v : str) : Prop := Forall2 (fun c d => eq_I c d = true) tok v.

Definition nonword_run (sep : str) : Prop := Forall (fun c => is_word c = false) sep.

Definition token_wf (tok : str) : Prop :=
  tok <> [] /\ Forall (fun c => is_word c = true) tok.

(** [spaced toks v]: [v] is the tokens [toks] in order, each up to case, with
    a run of non-word characters, possibly empty, between neighbours. *)
Inductive spaced : list str -> str -> Prop :=
| spaced_one tok v : same_I tok v -> spaced [tok] v
| spaced_cons tok v sep toks rest :
    same_I tok v -> nonword_run sep -> spaced toks rest ->
    spaced (tok :: toks) (v ++ sep ++ rest).

(** What the matcher of a term is built from: its tokens or, when it has
    none, the trimmed term as one literal. *)
Definition units (term : str) : list str :=
  match tokens_of (strip term) with
  | [] => [strip term]
  | tok :: toks => tok :: toks
  end.

Definition ends_clear (prefix : str) : Prop :=
  forall c, before None prefix = Some c -> is_alnum c = false.

Definition starts_clear (suffix : str) : Prop :=
  forall c, hd_error suffix = Some c -> is_alnum c = false.

(** A decision procedure for [spaced]. *)
Fixpoint eat_I (tok v : str) : option str :=
  match tok, v with
  | [], _ => Some v
  | c :: tok', d :: v' => if eq_I c d then eat_I tok' v' else None
  | _ :: _, [] => None
  end.

Fixpoint skip_nonword (v : str) : str :=
  match v with
  | d :: v' => if is_word d then v else skip_nonword v'
  | [] => []
  end.

Fixpoint spacedb (toks : list str) (v : str) : bool :=
  match toks with
  | [] => false
  | tok :: toks' =>
      match eat_I tok v with
      | Some r =>
          match toks' with
          | [] => match r with [] => true | _ :: _ => false end
          | _ :: _ => spacedb toks' (skip_nonword r)
          end
      | None => false
      end
  end.

(** Length of the leftmost match of [pat] in [desc]; -1, the initial
    [best_len], when there is none. *)
Definition span (pat : Pattern) (desc : str) : Z :=
  match search pat desc with
  | Some (m_start, m_end) => Z.of_nat m_end - Z.of_nat m_start
  | None => -1
  end.

Definition step (desc : str) (st : best) (t : string * string * Pattern) : best :=
  consider desc (fst (fst t)) (snd (fst t)) st (snd t).

(** The second end-to-end example of the specification, as a document and
    as the Rule Set compiled from it. *)
Definition rules_uber : json :=
  JObj [("Transport", JObj [("Rideshare", JArr [JStr "uber"])]);
        ("Entertainment", JObj [("Streaming", JArr [JStr "uber cool tv"])])].

Definition uber_rules (f : source_file) : RuleSet :=
  [("Transport", [("Rideshare", [make_loose_regex f "uber"])]);
   ("Entertainment", [("Streaming", [make_loose_regex f "uber cool tv"])])].

Definition three_rules (f : source_file) : RuleSet :=
  [("A", [("a", [make_loose_regex f "uber"])]);
   ("B", [("b", [make_loose_regex f "uber cool"])]);
   ("C", [("c", [make_loose_regex f "uber cool tv"])])].

Definition tie_rules (f : source_file) : RuleSet :=
  [("A", [("x", [make_loose_regex f "ab"])]);
   ("B", [("y", [make_loose_regex f "cd"])])].

Definition blank_rules (f : source_file) : RuleSet :=
  [("Food", [("Groceries", [make_loose_regex f ""])])].

Definition is_mapping (x : json) : bool :=
  match x with JObj _ => true | _ => false end.

Definition is_string (x : json) : bool :=
  match x with JStr _ => true | _ => false end.

(** A list of terms with a term that is not a string. *)
Definition bad_terms (terms : json) : bool :=
  match terms with
  | JArr elems => existsb (fun t => negb (is_string t)) elems
  | _ => false
  end.

(** The value of a category: not a mapping, or with a bad list of terms. *)
Definition bad_subs (subs : json) : bool :=
  match subs with
  | JObj members => existsb (fun e => bad_terms (snd e)) members
  | _ => true
  end.

(** The rules document: not a mapping, or with a bad category. *)
Definition malformed (raw : json) : bool :=
  match raw with
  | JObj members => existsb (fun e => bad_subs (snd e)) members
  | _ => true
  end.

(** ** STEP 1: CSV loading *)

(** The [re] category [\d] on [str] patterns, in this range the digits 0-9. *)
Definition is_digit (c : ascii) : bool := in_range 48 57 c.

(** The fragment of [re] that [first_txn_row] uses; no flag is set, so a
    literal character matches itself only. *)
Module DateRe.

Inductive node : Type :=
| AnySpace           (* \s*, greedy *)
| Digit              (* \d *)
| Char (c : ascii).  (* a literal character *)

(** [Pattern.match]: the backtracking matcher at the start of the text. *)
Fixpoint matches (p : list node) : str -> bool :=
  match p with
  | [] => fun _ => true
  | Digit :: p' => fun s =>
      match s with
      | d :: s' => if is_digit d then matches p' s' else false
      | [] => false
      end
  | Char c :: p' => fun s =>
      match s with
      | d :: s' => if Ascii.eqb c d then matches p' s' else false
      | [] => false
      end
  | AnySpace :: p' =>
      fix star (s : str) {struct s} : bool :=
        match s with
        | d :: s' =>
            if is_space d then (if star s' then true else matches p' s)
            else matches p' s
        | [] => matches p' s
        end
  end.

End DateRe.

(** [re.compile(r'^\s*\d{2}/\d{2}/\d{4}\s*,')]; the leading [^] holds at the
    start of the text, where [match] looks. *)
Definition date_start : list DateRe.node :=
  [DateRe.AnySpace; DateRe.Digit; DateRe.Digit; DateRe.Char "/";
   DateRe.Digit; DateRe.Digit; DateRe.Char "/";
   DateRe.Digit; DateRe.Digit; DateRe.Digit; DateRe.Digit;
   DateRe.AnySpace; DateRe.Char ","]%char.

(** [for i, line in enumerate(f): if date_start.match(line): return i] *)
Fixpoint first_match (lines : list str) (i : nat) : option nat :=
  match lines with
  | [] => None
  | line :: rest =>
      if DateRe.matches date_start line then Some i
      else first_match rest (S i)
  end.

(** [first_txn_row], from the lines of the file. *)
Definition first_txn_row (lines : list str) : nat :=
  match first_match lines 0 with
  | Some i => i
  | None => 0
  end.

(** ** STEP 4: helpers *)

(** What [re.sub(r"\s{2,}", " ", s)] leaves of one maximal run of
    whitespace: a run of two or more becomes one space. *)
Definition flush (run : str) : str :=
  match run with
  | [] => []
  | [c] => [c]
  | _ :: _ :: _ => [" "%char]
  end.

(** [re.sub(r"\s{2,}", " ", s)]; [run] is the whitespace read since the last
    other character. *)
Fixpoint sub_space_runs (s run : str) : str :=
  match s with
  | [] => flush run
  | c :: s' =>
      if is_space c then sub_space_runs s' (run ++ [c])
      else flush run ++ c :: sub_space_runs s' []
  end.

Definition normalize_desc (s : str) : str := strip (sub_space_runs s []).

(** [s.split()]: the maximal runs of characters other than whitespace. *)
Fixpoint split_ws (s cur : str) : list str :=
  match s with
  | [] => if nonempty cur then [cur] else []
  | c :: s' =>
      if is_space c then
        (if nonempty cur then cur :: split_ws s' [] else split_ws s' [])
      else split_ws s' (cur ++ [c])
  end.

(** [sep.join(parts)] on text. *)
Fixpoint join_str (sep : str) (parts : list str) : str :=
  match parts with
  | [] => []
  | [x] => x
  | x :: rest => x ++ sep ++ join_str sep rest
  end.

Definition merchant_hint (desc : str) : str :=
  join_str " " (firstn 5 (split_ws desc [])).

(** ** Further notions used in the statements *)

(** Two pattern nodes that no text tells apart. *)
Definition node_equiv (n n' : node) : Prop :=
  match n, n' with
  | Literal c, Literal c' => eq_I c c' = true
  | NotWordStar, NotWordStar => True
  | NotBehind cs, NotBehind cs' => forall d, in_charset_I cs d = in_charset_I cs' d
  | NotAhead cs, NotAhead cs' => forall d, in_charset_I cs d = in_charset_I cs' d
  | _, _ => False
  end.

Definition pattern_equiv (p p' : Pattern) : Prop := Forall2 node_equiv p p'.

(** Two Rule Sets with the same keys in the same order and equivalent
    patterns. *)
Definition subs_equiv (d d' : dict (list Pattern)) : Prop :=
  Forall2 (fun e e' => fst e = fst e' /\ Forall2 pattern_equiv (snd e) (snd e')) d d'.

Definition rules_equiv (r r' : RuleSet) : Prop :=
  Forall2 (fun e e' => fst e = fst e' /\ subs_equiv (snd e) (snd e')) r r'.

(** Whether both files treat a document alike: the same exception, or Rule
    Sets that resolve [desc] alike. *)
Definition same_outcome (desc : str) (x y : result RuleSet) : Prop :=
  match x, y with
  | inl e, inl e' => e = e'
  | inr r, inr r' => rules_equiv r r' /\ best_match desc r = best_match desc r'
  | _, _ => False
  end.

(** The terms of a rules document of the expected shape, with category and
    subcategory, in document order. *)
Definition term_strings (terms : json) : list string :=
  match terms with
  | JArr elems =>
      flat_map (fun t => match t with JStr s => [s] | _ => [] end) elems
  | _ => []
  end.

Definition terms_of (raw : json) : list (string * string * string) :=
  match raw with
  | JObj cats =>
      flat_map (fun entry : string * json =>
                  match snd entry with
                  | JObj subs =>
                      flat_map (fun e : string * json =>
                                  map (fun t => (fst entry, fst e, t))
                                      (term_strings (snd e)))
                               subs
                  | _ => []
                  end)
               cats
  | _ => []
  end.

(** The expected shape: a mapping of mappings of lists of strings. *)
Definition good_terms (terms : json) : bool :=
  match terms with
  | JArr elems => forallb is_string elems
  | _ => false
  end.

Definition good_subs (subs : json) : bool :=
  match subs with
  | JObj members => forallb (fun e => good_terms (snd e)) members
  | _ => false
  end.

Definition well_formed (raw : json) : bool :=
  match raw with
  | JObj members => forallb (fun e => good_subs (snd e)) members
  | _ => false
  end.

(** No key occurs twice in a mapping, as in every [dict]. *)
Fixpoint distinct_keys {V : Type} (d : list (string * V)) : bool :=
  match d with
  | [] => true
  | (k, _) :: d' =>
      negb (existsb (fun e => String.eqb (fst e) k) d') && distinct_keys d'
  end.

Definition distinct_everywhere (raw : json) : bool :=
  match raw with
  | JObj cats =>
      distinct_keys cats
      && forallb (fun entry : string * json =>
                    match snd entry with
                    | JObj subs => distinct_keys subs
                    | _ => true
                    end)
                 cats
  | _ => true
  end.

(** Two whitespace characters side by side. *)
Fixpoint double_space (s : str) : bool :=
  match s with
  | c :: s' =>
      match s' with
      | d :: _ => (is_space c && is_space d) || double_space s'
      | [] => false
      end
  | [] => false
  end.

Definition last_char (s : str) : option ascii := before None s.

(** The outcome of a computation in both files. *)
Definition result_rel {A B : Type} (R : A -> B -> Prop) (x : result A) (y : result B)
  : Prop :=
  match x, y with
  | inl e, inl e' => e = e'
  | inr a, inr b => R a b
  | _, _ => False
  end.

(** Whether the matcher, started at one position, succeeds. *)
Definition matchable (p : Pattern) (prev : option ascii) (s : str) : bool :=
  match match_here p prev s with
  | Some _ => true
  | None => false
  end.

(** Whether [search] finds a match at some position. *)
Fixpoint occurs_from (p : Pattern) (prev : option ascii) (s : str) : bool :=
  matchable p prev s
  || match s with
     | d :: s' => occurs_from p (Some d) s'
     | [] => false
     end.

(** Nothing, or whitespace, before a position. *)
Definition blank (o : option ascii) : Prop :=
  match o with
  | Some c => is_space c = true
  | None => True
  end.

(** A pattern that cannot tell one run of whitespace from another: its
    literals and classes hold no whitespace and each [\W*] stands before a
    literal. *)
Fixpoint ws_blind (p : Pattern) : Prop :=
  match p with
  | [] => True
  | Literal c :: p' => is_space c = false /\ ws_blind p'
  | NotWordStar :: p' => (exists c q, p' = Literal c :: q) /\ ws_blind p'
  | NotBehind cs :: p' =>
      (forall d, is_space d = true -> in_charset_I cs d = false) /\ ws_blind p'
  | NotAhead cs :: p' =>
      (forall d, is_space d = true -> in_charset_I cs d = false) /\ ws_blind p'
  end.

(** [sim b s s']: [s] and [s'] are the same text up to the length and kind
    of their runs of whitespace, and up to whitespace at the end.  With
    [b = true] whitespace has just been read on both sides, or the text
    starts here, and more of it may be skipped on either side. *)
Inductive sim : bool -> str -> str -> Prop :=
| sim_nil b : sim b [] []
| sim_char b c s s' :
    is_space c = false -> sim false s s' -> sim b (c :: s) (c :: s')
| sim_both c c' s s' :
    is_space c = true -> is_space c' = true -> sim true s s' ->
    sim false (c :: s) (c' :: s')
| sim_end_l c s : is_space c = true -> sim true s [] -> sim false (c :: s) []
| sim_end_r c s : is_space c = true -> sim true [] s -> sim false [] (c :: s)
| sim_drop_l c s s' : is_space c = true -> sim true s s' -> sim true (c :: s) s'
| sim_drop_r c s s' : is_space c = true -> sim true s s' -> sim true s (c :: s').

(** * Properties *)

(** ** Characters *)

Lemma all_chars_complete (c : ascii) : In c all_chars.
Proof.
  unfold all_chars. rewrite <- (ascii_nat_embedding c).
  apply in_map, in_seq. pose proof (nat_ascii_bounded c). lia.
Qed.

Lemma forall_chars (P : ascii -> bool) :
  forallb P all_chars = true -> forall c, P c = true.
Proof.
  intros H c. rewrite forallb_forall in H. apply H, all_chars_complete.
Qed.

(** Under [re.I] both lookaround classes are the letters and the digits. *)
Lemma guard_class_spec (f : source_file) (d : ascii) :
  in_charset_I (guard_class f) d = is_alnum d.
Proof.
  apply eqb_prop. revert d.
  apply (forall_chars (fun d => Bool.eqb (in_charset_I (guard_class f) d) (is_alnum d))).
  destruct f; vm_compute; reflexivity.
Qed.

Lemma alnum_is_word (c : ascii) : is_alnum c = true -> is_word c = true.
Proof.
  unfold is_alnum, is_word. intros H.
  repeat (apply orb_true_iff in H; destruct H as [H | H]); rewrite H;
    repeat rewrite orb_true_r; reflexivity.
Qed.

Lemma nonword_not_alnum (c : ascii) : is_word c = false -> is_alnum c = false.
Proof.
  intros H. destruct (is_alnum c) eqn:E; [| reflexivity].
  apply alnum_is_word in E. congruence.
Qed.

Lemma eq_I_refl (c : ascii) : eq_I c c = true.
Proof. apply Ascii.eqb_refl. Qed.

Lemma eq_I_word (c d : ascii) : eq_I c d = true -> is_word d = is_word c.
Proof.
  intros H. apply eqb_prop. revert H.
  generalize (forall_chars
    (fun c => forallb (fun d => implb (eq_I c d) (Bool.eqb (is_word d) (is_word c))) all_chars)).
  intros G. specialize (G ltac:(vm_compute; reflexivity) c).
  rewrite forallb_forall in G. specialize (G d (all_chars_complete d)).
  destruct (eq_I c d); [intros _; exact G | discriminate].
Qed.

(** ** The matcher *)

Lemma before_app prev pre1 pre2 :
  before prev (pre1 ++ pre2) = before (before prev pre1) pre2.
Proof. apply fold_left_app. Qed.

Lemma star_eq (p : Pattern) (prev : option ascii) (s : str) :
  match_here (NotWordStar :: p) prev s =
  match s with
  | d :: s' =>
      if negb (is_word d) then
        match match_here (NotWordStar :: p) (Some d) s' with
        | Some n => Some (S n)
        | None => match_here p prev s
        end
      else match_here p prev s
  | [] => match_here p prev s
  end.
Proof. destruct s; reflexivity. Qed.

Lemma match_here_bound (p : Pattern) :
  forall prev s n, match_here p prev s = Some n -> n <= List.length s.
Proof.
  induction p as [| nd p IH]; intros prev s n H.
  - simpl in H. injection H as <-. lia.
  - destruct nd as [c | | cs | cs].
    + destruct s as [| d s']; simpl in H; [discriminate |].
      destruct (eq_I c d); [| discriminate].
      destruct (match_here p (Some d) s') eqn:E; simpl in H; [| discriminate].
      injection H as <-. apply IH in E. simpl. lia.
    + revert prev n H. induction s as [| d s' IHs]; intros prev n H;
        rewrite star_eq in H.
      * eauto.
      * destruct (negb (is_word d)); [| eauto].
        destruct (match_here (NotWordStar :: p) (Some d) s') eqn:E.
        -- injection H as <-. apply IHs in E. simpl. lia.
        -- eauto.
    + simpl in H. destruct prev as [c |]; [destruct (in_charset_I cs c) |];
        try discriminate; eauto.
    + simpl in H. destruct s as [| d s']; [eauto |].
      destruct (in_charset_I cs d); [discriminate | eauto].
Qed.

(** What a successful match says of a trailing lookahead. *)
Lemma match_here_lookahead (cs : charset) (q : Pattern) :
  forall prev s n,
    match_here (q ++ [NotAhead cs]) prev s = Some n ->
    forall c, nth_error s n = Some c -> in_charset_I cs c = false.
Proof.
  induction q as [| nd q IH]; intros prev s n H c Hc.
  - simpl in H. destruct s as [| d s'].
    + injection H as <-. discriminate.
    + destruct (in_charset_I cs d) eqn:E; [discriminate |].
      injection H as <-. simpl in Hc. congruence.
  - destruct nd as [c0 | | cs0 | cs0]; rewrite <- app_comm_cons in H.
    + destruct s as [| d s']; simpl in H; [discriminate |].
      destruct (eq_I c0 d); [| discriminate].
      destruct (match_here (q ++ [NotAhead cs]) (Some d) s') eqn:E;
        simpl in H; [| discriminate].
      injection H as <-. simpl in Hc. eauto.
    + revert prev n H Hc. induction s as [| d s' IHs]; intros prev n H Hc;
        rewrite star_eq in H.
      * eauto.
      * destruct (negb (is_word d)); [| eauto].
        destruct (match_here (NotWordStar :: q ++ [NotAhead cs]) (Some d) s') eqn:E.
        -- injection H as <-. simpl in Hc. eauto.
        -- eauto.
    + simpl in H. destruct prev as [c1 |]; [destruct (in_charset_I cs0 c1) |];
        try discriminate; eauto.
    + simpl in H. destruct s as [| d s']; [eauto |].
      destruct (in_charset_I cs0 d); [discriminate | eauto].
Qed.

Lemma match_here_lookbehind (cs : charset) (q : Pattern) prev s n :
  match_here (NotBehind cs :: q) prev s = Some n ->
  forall c, prev = Some c -> in_charset_I cs c = false.
Proof.
  intros H c ->. simpl in H. destruct (in_charset_I cs c); [discriminate | reflexivity].
Qed.

(** [search] returns a match of the pattern ... *)
Lemma search_from_sound (p : Pattern) :
  forall s prev i a b,
    search_from p prev s i = Some (a, b) ->
    exists pre post n,
      s = pre ++ post /\ a = i + List.length pre /\ b = a + n /\
      match_here p (before prev pre) post = Some n.
Proof.
  induction s as [| d s' IH]; intros prev i a b H; simpl in H.
  - destruct (match_here p prev []) eqn:E; [| discriminate].
    injection H as <- <-. exists [], [], n. simpl. repeat split; auto; lia.
  - destruct (match_here p prev (d :: s')) eqn:E.
    + injection H as <- <-. exists [], (d :: s'), n. simpl. repeat split; auto; lia.
    + apply IH in H. destruct H as (pre & post & n & -> & -> & -> & Hm).
      exists (d :: pre), post, n. simpl. repeat split; auto; lia.
Qed.

(** ... and finds one whenever some position has one. *)
Lemma search_from_complete (p : Pattern) :
  forall pre post prev i n,
    match_here p (before prev pre) post = Some n ->
    exists a b, search_from p prev (pre ++ post) i = Some (a, b) /\ a <= i + List.length pre.
Proof.
  induction pre as [| d pre IH]; intros post prev i n H; simpl in *.
  - destruct post as [| e post']; simpl; rewrite H;
      eexists _, _; split; [reflexivity | lia | reflexivity | lia].
  - destruct (match_here p prev (d :: pre ++ post)) eqn:E.
    + eexists _, _; split; [reflexivity | lia].
    + destruct (IH post (Some d) (S i) n H) as (a & b & Hs & Hle).
      exists a, b. split; [exact Hs | lia].
Qed.

Lemma search_from_None (p : Pattern) :
  forall s prev i, search_from p prev s i = None -> match_here p prev s = None.
Proof.
  intros s prev i H. destruct s; simpl in H;
    destruct (match_here p prev _); [discriminate | reflexivity | discriminate | reflexivity].
Qed.

(** ** Tokens *)

Lemma same_I_refl (t : str) : same_I t t.
Proof. induction t; constructor; auto using eq_I_refl. Qed.

Lemma split_from_word (s : str) :
  forall cur b,
    Forall (fun c => is_word c = true) cur ->
    Forall (Forall (fun c => is_word c = true)) (split_from s cur b).
Proof.
  induction s as [| c s IH]; intros cur b Hcur; simpl.
  - constructor; auto.
  - destruct (is_word c) eqn:E.
    + apply IH. apply Forall_app. split; auto.
    + destruct b; [apply IH; constructor |].
      constructor; [exact Hcur | apply IH; constructor].
Qed.

Lemma tokens_of_wf (s : str) : Forall token_wf (tokens_of s).
Proof.
  unfold tokens_of, split_nonword.
  pose proof (@split_from_word s [] false (Forall_nil _)) as H.
  induction H as [| t l Ht Hl IH]; simpl; [constructor |].
  destruct t as [| c t]; simpl; [exact IH |].
  constructor; [split; [discriminate | exact Ht] | exact IH].
Qed.

(** How the text of a term lies around its tokens. *)
Lemma split_layout (s : str) :
  (forall b,
      (filter nonempty (split_from s [] b) = [] /\ nonword_run s) \/
      (exists sep0 v sepn,
          s = sep0 ++ v ++ sepn /\ nonword_run sep0 /\ nonword_run sepn /\
          spaced (filter nonempty (split_from s [] b)) v)) /\
  (forall cur,
      cur <> [] ->
      exists v sepn,
        cur ++ s = v ++ sepn /\ nonword_run sepn /\
        spaced (filter nonempty (split_from s cur false)) v).
Proof.
  induction s as [| c s [IH1 IH2]]; split.
  - intros b. left. split; [reflexivity | constructor].
  - intros cur Hcur. exists cur, []. simpl.
    destruct cur as [| x cur]; [congruence |]. simpl.
    repeat split; [constructor | apply spaced_one, same_I_refl].
  - intros b. simpl. destruct (is_word c) eqn:E.
    + right. destruct (IH2 [c] ltac:(discriminate)) as (v & sepn & Heq & Hn & Hs).
      exists [], v, sepn. simpl in *. repeat split; auto. constructor.
    + assert (H : (filter nonempty (split_from s [] true) = [] /\ nonword_run (c :: s)) \/
                  (exists sep0 v sepn,
                      c :: s = sep0 ++ v ++ sepn /\ nonword_run sep0 /\
                      nonword_run sepn /\
                      spaced (filter nonempty (split_from s [] true)) v)).
      { destruct (IH1 true) as [[H1 H2] | (sep0 & v & sepn & -> & H0 & Hn & Hs)].
        - left. split; [exact H1 | constructor; auto].
        - right. exists (c :: sep0), v, sepn. repeat split; auto.
          constructor; auto. }
      destruct b; [exact H | simpl; exact H].
  - intros cur Hcur. simpl. destruct (is_word c) eqn:E.
    + destruct (IH2 (cur ++ [c])) as (v & sepn & Heq & Hn & Hs).
      { destruct cur; discriminate. }
      exists v, sepn. rewrite <- app_assoc in Heq. simpl in Heq. auto.
    + destruct cur as [| x cur]; [congruence |]. simpl.
      destruct (IH1 true) as [[H1 H2] | (sep0 & v & sepn & -> & H0 & Hn & Hs)].
      * rewrite H1. exists (x :: cur), (c :: s). repeat split.
        -- constructor; auto.
        -- apply spaced_one, same_I_refl.
      * exists ((x :: cur) ++ (c :: sep0) ++ v), sepn. repeat split.
        -- rewrite <- !app_assoc. reflexivity.
        -- exact Hn.
        -- apply spaced_cons; auto using same_I_refl. constructor; auto.
Qed.

Lemma tokens_layout (s : str) :
  (tokens_of s = [] /\ nonword_run s) \/
  (exists sep0 v sepn,
      s = sep0 ++ v ++ sepn /\ nonword_run sep0 /\ nonword_run sepn /\
      spaced (tokens_of s) v).
Proof. apply (proj1 (split_layout s) false). Qed.

(** ** Matching the body of a compiled term *)

Lemma option_map_add0 (o : option nat) : option_map (Nat.add 0) o = o.
Proof. destruct o; reflexivity. Qed.

Lemma escape_match (tok v : str) :
  same_I tok v ->
  forall q prev s,
    match_here (escape tok ++ q) prev (v ++ s) =
    option_map (Nat.add (List.length v)) (match_here q (before prev v) s).
Proof.
  induction 1 as [| c d tok v Hcd _ IH]; intros q prev s; simpl.
  - symmetry. apply option_map_add0.
  - rewrite Hcd, IH. destruct (match_here q _ s); reflexivity.
Qed.

(** A greedy [\W*] in front of a word character: it takes the whole run of
    non-word characters, and giving some back never helps. *)
Lemma star_match (sep : str) :
  nonword_run sep ->
  forall c q w x prev,
    is_word c = true -> is_word w = true ->
    match_here (NotWordStar :: Literal c :: q) prev (sep ++ w :: x) =
    option_map (Nat.add (List.length sep))
               (match_here (Literal c :: q) (before prev sep) (w :: x)).
Proof.
  induction 1 as [| d sep Hd _ IH]; intros c q w x prev Hc Hw.
  - rewrite star_eq. cbn [app]. cbv beta match. rewrite Hw. cbn [negb].
    symmetry. apply option_map_add0.
  - rewrite star_eq. cbn [app]. cbv beta match. rewrite Hd. cbn [negb].
    rewrite (IH c q w x (Some d) Hc Hw). change (before (Some d) sep) with (before prev (d :: sep)).
    destruct (match_here (Literal c :: q) _ (w :: x)) as [n |]; simpl.
    + reflexivity.
    + destruct (eq_I c d) eqn:E; [| reflexivity].
      apply eq_I_word in E. congruence.
Qed.

Lemma spaced_head (c : ascii) (t : str) (toks : list str) (rest : str) :
  spaced ((c :: t) :: toks) rest ->
  exists w x, rest = w :: x /\ eq_I c w = true.
Proof.
  intros H. inversion H as [tok v Hs | tok v sep toks' rest' Hs Hn Hr]; subst;
    inversion Hs; subst; simpl; eauto.
Qed.

Lemma join_head (c : ascii) (t : str) (toks : list str) (q : Pattern) :
  exists q', join [NotWordStar] (map escape ((c :: t) :: toks)) ++ q = Literal c :: q'.
Proof. destruct toks; simpl; eauto. Qed.

Lemma body_match (toks : list str) (v : str) :
  spaced toks v ->
  Forall token_wf toks ->
  forall q prev s,
    match_here (join [NotWordStar] (map escape toks) ++ q) prev (v ++ s) =
    option_map (Nat.add (List.length v)) (match_here q (before prev v) s).
Proof.
  induction 1 as [tok v Hs | tok v sep toks rest Hs Hn Hr IH]; intros Hwf q prev s.
  - simpl. apply escape_match, Hs.
  - inversion Hwf as [| ? ? _ Hwf']; subst.
    destruct toks as [| t toks]; [inversion Hr |].
    inversion Hwf' as [| ? ? [Ht Hw] _]; subst.
    destruct t as [| c t]; [congruence |].
    inversion Hw as [| ? ? Hc _]; subst.
    destruct (spaced_head Hr) as (w & x & -> & Hcw).
    destruct (join_head c t toks q) as (q' & Hq).
    change (join [NotWordStar] (map escape (tok :: (c :: t) :: toks)))
      with (escape tok ++ [NotWordStar] ++ join [NotWordStar] (map escape ((c :: t) :: toks))).
    rewrite <- !app_assoc. cbn [app].
    rewrite (escape_match Hs). rewrite Hq.
    rewrite (star_match Hn); [| exact Hc | rewrite (eq_I_word _ _ Hcw); exact Hc].
    rewrite <- Hq.
    change (w :: x ++ s) with ((w :: x) ++ s).
    rewrite (IH Hwf' q _ s). rewrite !before_app.
    destruct (match_here q _ s); simpl; [| reflexivity].
    f_equal. rewrite !length_app. simpl. lia.
Qed.

(** ** A compiled term on a text that contains a variant of it *)

Lemma before_Forall (P : ascii -> Prop) (pre : str) :
  Forall P pre ->
  forall prev c,
    (forall d, prev = Some d -> P d) -> before prev pre = Some c -> P c.
Proof.
  induction 1 as [| d pre Hd _ IH]; intros prev c Hprev H; simpl in H.
  - auto.
  - apply (IH (Some d) c); [| exact H]. intros ? [= <-]. exact Hd.
Qed.

Lemma nonword_run_ends_clear (sep : str) : nonword_run sep -> ends_clear sep.
Proof.
  intros H c Hc.
  apply (@before_Forall (fun c => is_alnum c = false) sep) with (prev := None);
    [| discriminate | exact Hc].
  eapply Forall_impl; [| exact H]. apply nonword_not_alnum.
Qed.

Lemma nonword_run_starts_clear (sep : str) : nonword_run sep -> starts_clear sep.
Proof.
  intros H c Hc. destruct H as [| d sep Hd _]; [discriminate |].
  injection Hc as <-. apply nonword_not_alnum, Hd.
Qed.

Lemma spaced_nonnil (toks : list str) (v : str) : spaced toks v -> toks <> [].
Proof. destruct 1; discriminate. Qed.

Lemma compiled_match (f : source_file) (T v prefix suffix : str) :
  spaced (units T) v ->
  ends_clear prefix -> starts_clear suffix ->
  match_here (make_loose_regex f T) (before None prefix) (v ++ suffix)
  = Some (List.length v).
Proof.
  intros Hv Hpre Hsuf. unfold make_loose_regex, units in *.
  pose proof (tokens_of_wf (strip T)) as Hwf.
  destruct (tokens_of (strip T)) as [| tok toks].
  - inversion Hv as [? ? Hs | ? ? ? ? ? _ _ Hr]; subst; [| inversion Hr].
    rewrite <- (app_nil_r (escape (strip T))).
    rewrite (escape_match Hs). simpl. f_equal. lia.
  - cbn [app match_here].
    assert (Hg : match before None prefix with
                 | Some c => in_charset_I (guard_class f) c = false
                 | None => True
                 end).
    { destruct (before None prefix) as [c |] eqn:E; [| exact I].
      rewrite guard_class_spec. auto. }
    destruct (before None prefix) as [c |].
    + rewrite Hg. rewrite (body_match Hv Hwf).
      destruct suffix as [| d suffix]; simpl.
      * f_equal. lia.
      * rewrite guard_class_spec, (Hsuf d eq_refl). simpl. f_equal. lia.
    + rewrite (body_match Hv Hwf).
      destruct suffix as [| d suffix]; simpl.
      * f_equal. lia.
      * rewrite guard_class_spec, (Hsuf d eq_refl). simpl. f_equal. lia.
Qed.

Lemma term_found (f : source_file) (T v prefix suffix : str) :
  spaced (units T) v ->
  ends_clear prefix -> starts_clear suffix ->
  exists a b,
    search (make_loose_regex f T) (prefix ++ v ++ suffix) = Some (a, b) /\
    a <= List.length prefix.
Proof.
  intros Hv Hpre Hsuf.
  destruct (@search_from_complete (make_loose_regex f T) prefix (v ++ suffix)
              None 0 _ (@compiled_match f T v prefix suffix Hv Hpre Hsuf)) as (a & b & H & Hle).
  exists a, b. split; [exact H | lia].
Qed.

Lemma eat_I_sound (tok : str) :
  forall v r, eat_I tok v = Some r -> exists v1, v = v1 ++ r /\ same_I tok v1.
Proof.
  induction tok as [| c tok IH]; intros v r H; simpl in H.
  - injection H as <-. exists []. split; [reflexivity | constructor].
  - destruct v as [| d v]; [discriminate |].
    destruct (eq_I c d) eqn:E; [| discriminate].
    destruct (IH _ _ H) as (v1 & -> & Hs).
    exists (d :: v1). split; [reflexivity | constructor; assumption].
Qed.

Lemma skip_nonword_sound (v : str) :
  exists sep, v = sep ++ skip_nonword v /\ nonword_run sep.
Proof.
  induction v as [| d v (sep & IH & Hn)]; simpl.
  - exists []. split; [reflexivity | constructor].
  - destruct (is_word d) eqn:E.
    + exists []. split; [reflexivity | constructor].
    + exists (d :: sep). split; [simpl; congruence | constructor; assumption].
Qed.

Lemma spacedb_sound (toks : list str) :
  forall v, spacedb toks v = true -> spaced toks v.
Proof.
  induction toks as [| tok toks IH]; intros v H; simpl in H; [discriminate |].
  destruct (eat_I tok v) as [r |] eqn:E; [| discriminate].
  destruct (eat_I_sound _ _ E) as (v1 & -> & Hs).
  destruct toks as [| t toks].
  - destruct r; [| discriminate]. rewrite app_nil_r. apply spaced_one, Hs.
  - destruct (skip_nonword_sound r) as (sep & Hr & Hn).
    rewrite Hr. apply spaced_cons; auto.
Qed.

(** ** The resolver as one loop over the triples *)

Lemma best_match_loop_triples (desc : str) (rules : RuleSet) :
  forall st, best_match_loop desc rules st = fold_left (step desc) (triples rules) st.
Proof.
  unfold best_match_loop, triples.
  induction rules as [| [cat subs] rules IH]; intros st; simpl; [reflexivity |].
  rewrite fold_left_app, IH. f_equal.
  clear IH. revert st. induction subs as [| [sub pats] subs IHs]; intros st; simpl;
    [reflexivity |].
  rewrite fold_left_app, IHs. f_equal.
  clear IHs. revert st. induction pats as [| pat pats IHp]; intros st; simpl;
    [reflexivity |].
  rewrite IHp. reflexivity.
Qed.

Lemma search_order (pat : Pattern) (desc : str) (a b : nat) :
  search pat desc = Some (a, b) -> a <= b <= List.length desc.
Proof.
  intros H. apply search_from_sound in H.
  destruct H as (pre & post & n & -> & -> & -> & Hm).
  apply match_here_bound in Hm. rewrite length_app. lia.
Qed.

Lemma span_lower (pat : Pattern) (desc : str) : (-1 <= span pat desc)%Z.
Proof.
  unfold span. destruct (search pat desc) as [[a b] |] eqn:E; [| lia].
  apply search_order in E. lia.
Qed.

Lemma span_found (pat : Pattern) (desc : str) (a b : nat) :
  search pat desc = Some (a, b) ->
  span pat desc = (Z.of_nat b - Z.of_nat a)%Z /\ (0 <= span pat desc)%Z.
Proof.
  intros H. unfold span. rewrite H. apply search_order in H. lia.
Qed.

Lemma consider_span (desc : str) (cat sub : string) (st : best) (pat : Pattern) :
  (-1 <= fst st)%Z ->
  consider desc cat sub st pat =
  if (span pat desc >? fst st)%Z then (span pat desc, (cat, sub)) else st.
Proof.
  intros H. unfold consider, span.
  destruct (search pat desc) as [[a b] |]; [reflexivity |].
  destruct (Z.gtb_spec (-1) (fst st)); [lia | reflexivity].
Qed.

Lemma fold_keep (desc : str) (l : list (string * string * Pattern)) :
  forall st,
    (-1 <= fst st)%Z ->
    (forall t, In t l -> (span (snd t) desc <= fst st)%Z) ->
    fold_left (step desc) l st = st.
Proof.
  induction l as [| t l IH]; intros st Hst H; simpl; [reflexivity |].
  assert (E : step desc st t = st).
  { unfold step. rewrite consider_span by exact Hst.
    specialize (H t (or_introl eq_refl)).
    destruct (Z.gtb_spec (span (snd t) desc) (fst st)); [lia | reflexivity]. }
  rewrite E. apply IH; [exact Hst |]. intros t' Ht'. apply H. right. exact Ht'.
Qed.

Lemma fold_below (desc : str) (m : Z) (l : list (string * string * Pattern)) :
  forall st,
    (-1 <= fst st < m)%Z ->
    (forall t, In t l -> (span (snd t) desc < m)%Z) ->
    (-1 <= fst (fold_left (step desc) l st) < m)%Z.
Proof.
  induction l as [| t l IH]; intros st Hst H; simpl; [exact Hst |].
  apply IH; [| intros t' Ht'; apply H; right; exact Ht'].
  unfold step. rewrite consider_span by lia.
  specialize (H t (or_introl eq_refl)). pose proof (span_lower (snd t) desc).
  destruct (Z.gtb_spec (span (snd t) desc) (fst st)); simpl; lia.
Qed.

(** The first triple of maximal span owns the result. *)
Lemma first_longest_wins (desc : str) (rules : RuleSet)
      (l1 l2 : list (string * string * Pattern)) (cat sub : string) (pat : Pattern) :
  triples rules = l1 ++ (cat, sub, pat) :: l2 ->
  (0 <= span pat desc)%Z ->
  (forall t, In t l1 -> (span (snd t) desc < span pat desc)%Z) ->
  (forall t, In t l2 -> (span (snd t) desc <= span pat desc)%Z) ->
  best_match desc rules = (cat, sub).
Proof.
  intros Ht Hm H1 H2. unfold best_match.
  rewrite best_match_loop_triples, Ht, fold_left_app. simpl.
  pose proof (@fold_below desc (span pat desc) l1 ((-1)%Z, sentinel)
                ltac:(simpl; lia) H1) as Hb.
  set (st1 := fold_left (step desc) l1 ((-1)%Z, sentinel)) in *.
  assert (E : step desc st1 (cat, sub, pat) = (span pat desc, (cat, sub))).
  { unfold step. simpl. rewrite consider_span by lia.
    destruct (Z.gtb_spec (span pat desc) (fst st1)); [reflexivity | lia]. }
  rewrite E, fold_keep; [reflexivity | simpl; lia | exact H2].
Qed.

(** ** Example rule sets *)

Example uber_rules_loaded (f : source_file) :
  load_rules_json f rules_uber = inr (uber_rules f).
Proof. destruct f; vm_compute; reflexivity. Qed.

Example blank_rules_loaded (f : source_file) :
  load_rules_json f (JObj [("Food", JObj [("Groceries", JArr [JStr ""])])])
  = inr (blank_rules f).
Proof. destruct f; vm_compute; reflexivity. Qed.

(** The end-to-end examples of the specification. *)
Example whole_foods_resolves (f : source_file) :
  bind (load_rules_json f
          (JObj [("Food", JObj [("Groceries", JArr [JStr "whole foods"])])]))
       (fun rules => ret (best_match "WHOLEFOODS MKT #532 CAMBRIDGE MA" rules))
  = inr ("Food", "Groceries").
Proof. destruct f; vm_compute; reflexivity. Qed.

Example uber_cool_tv_resolves (f : source_file) :
  best_match "UBER COOL TV MONTHLY" (uber_rules f) = ("Entertainment", "Streaming").
Proof. destruct f; vm_compute; reflexivity. Qed.

(** [re.split] keeps the empty pieces at the ends; an underscore is a word
    character, so it neither splits a term nor is taken by [\W*]. *)
Example split_keeps_empty_ends :
  split_nonword " a--b " = [[]; ["a"%char]; ["b"%char]; []].
Proof. vm_compute. reflexivity. Qed.

Example underscore_is_no_separator (f : source_file) :
  search (make_loose_regex f "whole foods") "WHOLE_FOODS MKT" = None /\
  tokens_of (strip "whole_foods") = [list_ascii_of_string "whole_foods"].
Proof. destruct f; split; vm_compute; reflexivity. Qed.

(** ** The resolver *)

(** C1, as amended.  When two matchers of the Rule Set both match the
    description and the leftmost match of one is strictly longer than that
    of the other and than that of every other matcher of the Rule Set, then
    [best_match] returns the pair that owns the longer one, wherever the two
    rules stand in the Rule Set. *)
Theorem C1_longest_span_wins
        (desc : str) (rules : RuleSet)
        (l1 l2 : list (string * string * Pattern))
        (cat sub : string) (pat : Pattern) (a b : nat)
        (cat' sub' : string) (pat' : Pattern) (a' b' : nat) :
  triples rules = l1 ++ (cat, sub, pat) :: l2 ->
  In (cat', sub', pat') (l1 ++ l2) ->
  search pat desc = Some (a, b) ->
  search pat' desc = Some (a', b') ->
  (Z.of_nat b' - Z.of_nat a' < Z.of_nat b - Z.of_nat a)%Z ->
  (forall t, In t (l1 ++ l2) -> (span (snd t) desc < span pat desc)%Z) ->
  best_match desc rules = (cat, sub).
Proof.
  intros Ht _ Hm _ _ Hall.
  apply (@first_longest_wins desc rules l1 l2 cat sub pat Ht).
  - apply (span_found _ _ Hm).
  - intros t Hin. apply Hall, in_or_app. left. exact Hin.
  - intros t Hin. apply Z.lt_le_incl, Hall, in_or_app. right. exact Hin.
Qed.

Lemma C1_longest_span_wins_witness :
  best_match "UBER COOL TV MONTHLY" (uber_rules main_py)
  = ("Entertainment", "Streaming").
Proof.
  apply (@C1_longest_span_wins
           "UBER COOL TV MONTHLY" (uber_rules main_py)
           [("Transport", "Rideshare", make_loose_regex main_py "uber")] []
           "Entertainment" "Streaming" (make_loose_regex main_py "uber cool tv") 0 12
           "Transport" "Rideshare" (make_loose_regex main_py "uber") 0 4).
  - reflexivity.
  - left. reflexivity.
  - vm_compute. reflexivity.
  - vm_compute. reflexivity.
  - lia.
  - intros t [<- | []]. vm_compute. reflexivity.
Defined.

(** C1 as stated fails on a Rule Set with a third, still longer match:
    "uber" and "uber cool" both match, the second with the longer span, yet
    the result is the pair of "uber cool tv". *)
Lemma C1_counterexample :
  In ("A", "a", make_loose_regex main_py "uber") (triples (three_rules main_py)) /\
  In ("B", "b", make_loose_regex main_py "uber cool") (triples (three_rules main_py)) /\
  search (make_loose_regex main_py "uber") "UBER COOL TV" = Some (0, 4) /\
  search (make_loose_regex main_py "uber cool") "UBER COOL TV" = Some (0, 9) /\
  best_match "UBER COOL TV" (three_rules main_py) = ("C", "c") /\
  best_match "UBER COOL TV" (three_rules main_py) <> ("B", "b").
Proof.
  repeat split; try (vm_compute; reflexivity).
  - left. reflexivity.
  - right. left. reflexivity.
  - vm_compute. discriminate.
Qed.

(** C2.  [best_match] replaces the best candidate only on a strictly longer
    span, so a matching triple that is strictly longer than every triple met
    before it and at least as long as every triple met after it, i.e. the
    first of the triples of maximal span in iteration order, gives the
    result. *)
Theorem C2_first_of_longest_wins
        (desc : str) (rules : RuleSet)
        (l1 l2 : list (string * string * Pattern))
        (cat sub : string) (pat : Pattern) (a b : nat) :
  triples rules = l1 ++ (cat, sub, pat) :: l2 ->
  search pat desc = Some (a, b) ->
  (forall t, In t l1 -> (span (snd t) desc < span pat desc)%Z) ->
  (forall t, In t l2 -> (span (snd t) desc <= span pat desc)%Z) ->
  best_match desc rules = (cat, sub) /\
  (forall (st : best) (cat' sub' : string) (pat' : Pattern),
      consider desc cat' sub' st pat' = st \/
      exists a' b',
        search pat' desc = Some (a', b') /\
        (fst st < Z.of_nat b' - Z.of_nat a')%Z /\
        consider desc cat' sub' st pat'
        = ((Z.of_nat b' - Z.of_nat a')%Z, (cat', sub'))).
Proof.
  intros Ht Hm H1 H2. split.
  - apply (@first_longest_wins desc rules l1 l2 cat sub pat Ht); auto.
    apply (span_found _ _ Hm).
  - intros st cat' sub' pat'. unfold consider.
    destruct (search pat' desc) as [[a' b'] |]; [| left; reflexivity].
    cbv zeta.
    destruct (Z.gtb_spec (Z.of_nat b' - Z.of_nat a') (fst st)).
    + right. exists a', b'. repeat split. lia.
    + left. reflexivity.
Qed.

Lemma C2_first_of_longest_wins_witness :
  best_match "ab cd" (tie_rules main_py) = ("A", "x") /\
  (forall (st : best) (cat' sub' : string) (pat' : Pattern),
      consider "ab cd" cat' sub' st pat' = st \/
      exists a' b',
        search pat' "ab cd" = Some (a', b') /\
        (fst st < Z.of_nat b' - Z.of_nat a')%Z /\
        consider "ab cd" cat' sub' st pat'
        = ((Z.of_nat b' - Z.of_nat a')%Z, (cat', sub'))).
Proof.
  apply (@C2_first_of_longest_wins
           "ab cd" (tie_rules main_py)
           [] [("B", "y", make_loose_regex main_py "cd")]
           "A" "x" (make_loose_regex main_py "ab") 0 2).
  - reflexivity.
  - vm_compute. reflexivity.
  - intros t [].
  - intros t [<- | []]. vm_compute. discriminate.
Defined.

(** C3.  When no matcher of the Rule Set matches the description,
    [best_match] returns ("Uncategorized", "Other"); it is a total function,
    so this is an ordinary return value. *)
Theorem C3_no_match_sentinel (desc : str) (rules : RuleSet) :
  (forall t, In t (triples rules) -> search (snd t) desc = None) ->
  best_match desc rules = ("Uncategorized", "Other").
Proof.
  intros H. unfold best_match.
  rewrite best_match_loop_triples, fold_keep; [reflexivity | simpl; lia |].
  intros t Hin. unfold span. rewrite (H t Hin). simpl. lia.
Qed.

Lemma C3_no_match_sentinel_witness :
  best_match "Las Vegas Casino" (uber_rules categorize_trans_py)
  = ("Uncategorized", "Other").
Proof.
  apply (@C3_no_match_sentinel "Las Vegas Casino" (uber_rules categorize_trans_py)).
  intros t [<- | [<- | []]]; vm_compute; reflexivity.
Defined.

(** ** The compiled matcher *)

Lemma before_snoc (prev : option ascii) (pre : str) (c : ascii) :
  before prev (pre ++ [c]) = Some c.
Proof. rewrite before_app. reflexivity. Qed.

Lemma before_nth (pre post : str) (c : ascii) :
  1 <= List.length pre ->
  nth_error (pre ++ post) (List.length pre - 1) = Some c ->
  before None pre = Some c.
Proof.
  intros Hlen.
  destruct (exists_last (l := pre)) as (pre' & d & ->).
  { intros ->. simpl in Hlen. lia. }
  clear Hlen. rewrite length_app, <- app_assoc. simpl.
  replace (List.length pre' + 1 - 1) with (List.length pre' + 0) by lia.
  rewrite nth_error_app2 by lia.
  replace (List.length pre' + 0 - List.length pre') with 0 by lia.
  simpl. intros [= <-]. apply before_snoc.
Qed.

Lemma join_first (c : ascii) (t : str) (toks : list str) :
  exists q, join [NotWordStar] (map escape ((c :: t) :: toks)) = Literal c :: q.
Proof. destruct toks; simpl; eauto. Qed.

Lemma guarded_shape (f : source_file) (T : str) :
  tokens_of (strip T) <> [] ->
  exists c q,
    make_loose_regex f T
    = (NotBehind (guard_class f) :: Literal c :: q) ++ [NotAhead (guard_class f)].
Proof.
  intros H. unfold make_loose_regex. cbv zeta.
  pose proof (tokens_of_wf (strip T)) as Hwf.
  destruct (tokens_of (strip T)) as [| tok toks]; [congruence |].
  inversion Hwf as [| ? ? [Hne _] _]; subst.
  destruct tok as [| c tok]; [congruence |].
  destruct (join_first c tok toks) as (q & Hq).
  exists c, q.
  exact (f_equal (fun x => NotBehind (guard_class f) :: x ++ [NotAhead (guard_class f)]) Hq).
Qed.

(** C4, as amended.  For every rule term that has at least one token, the
    span found by the compiled matcher is never immediately preceded nor
    immediately followed by a letter A-Z, a-z or a digit 0-9.  (A term
    without tokens is compiled to its literal text, without lookarounds.) *)
Theorem C4_token_match_boundaries
        (f : source_file) (T desc : str) (a b : nat) :
  tokens_of (strip T) <> [] ->
  search (make_loose_regex f T) desc = Some (a, b) ->
  a <= b <= List.length desc /\
  (forall c, 1 <= a -> nth_error desc (a - 1) = Some c -> is_alnum c = false) /\
  (forall c, nth_error desc b = Some c -> is_alnum c = false).
Proof.
  intros Htok Hs. split; [apply (search_order _ _ Hs) |].
  destruct (guarded_shape f T Htok) as (c0 & q & Hp).
  apply search_from_sound in Hs.
  destruct Hs as (pre & post & n & -> & -> & -> & Hm).
  rewrite Hp in Hm. cbn [plus] in *.
  split.
  - intros c Ha Hc. rewrite <- (guard_class_spec f).
    apply (@match_here_lookbehind (guard_class f)
             (Literal c0 :: q ++ [NotAhead (guard_class f)]) _ _ _ Hm).
    apply (before_nth pre post); assumption.
  - intros c Hc. rewrite <- (guard_class_spec f).
    apply (@match_here_lookahead (guard_class f)
             (NotBehind (guard_class f) :: Literal c0 :: q) _ _ _ Hm).
    rewrite nth_error_app2 in Hc by lia.
    replace (List.length pre + n - List.length pre) with n in Hc by lia.
    exact Hc.
Qed.

Lemma C4_token_match_boundaries_witness :
  0 <= 5 <= List.length (list_ascii_of_string "FEDEX OFFICE PRINT #123") /\
  (forall c, 1 <= 0 ->
             nth_error (list_ascii_of_string "FEDEX OFFICE PRINT #123") (0 - 1) = Some c ->
             is_alnum c = false) /\
  (forall c, nth_error (list_ascii_of_string "FEDEX OFFICE PRINT #123") 5 = Some c ->
             is_alnum c = false).
Proof.
  apply (@C4_token_match_boundaries main_py "fedex" "FEDEX OFFICE PRINT #123" 0 5).
  - vm_compute. discriminate.
  - vm_compute. reflexivity.
Defined.

(** C4 as stated fails for a term without tokens: "&" is compiled to the
    literal "&", which matches inside "a&b" between two letters. *)
Lemma C4_counterexample :
  tokens_of (strip "&") = [] /\
  search (make_loose_regex categorize_trans_py "&") "a&b" = Some (1, 2) /\
  search (make_loose_regex main_py "&") "a&b" = Some (1, 2) /\
  nth_error (list_ascii_of_string "a&b") 0 = Some "a"%char /\
  is_alnum "a" = true /\
  nth_error (list_ascii_of_string "a&b") 2 = Some "b"%char /\
  is_alnum "b" = true.
Proof. repeat split; vm_compute; reflexivity. Qed.

(** C5.  The matcher of "gas" finds nothing in "Las Vegas Casino"; the
    matcher of "fedex" finds the span 0..5 of "FEDEX OFFICE PRINT #123",
    which is the text "FEDEX"; in both source files. *)
Theorem C5_gas_and_fedex (f : source_file) :
  search (make_loose_regex f "gas") "Las Vegas Casino" = None /\
  search (make_loose_regex f "fedex") "FEDEX OFFICE PRINT #123" = Some (0, 5) /\
  firstn (5 - 0) (skipn 0 (list_ascii_of_string "FEDEX OFFICE PRINT #123"))
  = list_ascii_of_string "FEDEX".
Proof. destruct f; repeat split; vm_compute; reflexivity. Qed.

(** C10.  The matcher compiled from a term always finds a match in the
    trimmed text of that term. *)
Theorem C10_term_matches_itself (f : source_file) (T : str) :
  exists a b, search (make_loose_regex f T) (strip T) = Some (a, b).
Proof.
  destruct (tokens_layout (strip T)) as [[Hnil _] | (sep0 & v & sepn & Heq & H0 & Hn & Hs)].
  - assert (Hu : spaced (units T) (strip T)).
    { unfold units. rewrite Hnil. apply spaced_one, same_I_refl. }
    destruct (@term_found f T (strip T) [] [] Hu) as (a & b & H & _).
    + intros c Hc. discriminate.
    + intros c Hc. discriminate.
    + simpl in H. rewrite app_nil_r in H. eauto.
  - assert (Hu : spaced (units T) v).
    { unfold units. pose proof (spaced_nonnil Hs) as Hne.
      destruct (tokens_of (strip T)); [congruence | exact Hs]. }
    destruct (@term_found f T v sep0 sepn Hu
                (nonword_run_ends_clear H0) (nonword_run_starts_clear Hn))
      as (a & b & H & _).
    rewrite Heq. eauto.
Qed.

(** ** Empty descriptions *)

Lemma nonblank_no_empty_match (f : source_file) (T : str) :
  strip T <> [] -> search (make_loose_regex f T) [] = None.
Proof.
  intros H. unfold search. simpl.
  destruct (tokens_of (strip T)) as [| tok toks] eqn:E.
  - unfold make_loose_regex. rewrite E.
    destruct (strip T) as [| c t]; [congruence | reflexivity].
  - destruct (guarded_shape f T) as (c & q & ->); [congruence | reflexivity].
Qed.

(** C7, as amended.  For every Rule Set compiled from terms none of which is
    empty after trimming, the empty description resolves to
    ("Uncategorized", "Other"). *)
Theorem C7_empty_description (f : source_file) (rules : RuleSet) :
  (forall t, In t (triples rules) ->
             exists T, snd t = make_loose_regex f T /\ strip T <> []) ->
  best_match [] rules = ("Uncategorized", "Other").
Proof.
  intros H. unfold best_match.
  rewrite best_match_loop_triples, fold_keep; [reflexivity | simpl; lia |].
  intros t Hin. destruct (H t Hin) as (T & -> & HT).
  unfold span. rewrite (nonblank_no_empty_match f T HT). simpl. lia.
Qed.

Lemma C7_empty_description_witness :
  best_match [] (uber_rules main_py) = ("Uncategorized", "Other").
Proof.
  apply (@C7_empty_description main_py (uber_rules main_py)).
  intros t [<- | [<- | []]].
  - exists (list_ascii_of_string "uber"). split; [reflexivity | vm_compute; discriminate].
  - exists (list_ascii_of_string "uber cool tv"). split; [reflexivity | vm_compute; discriminate].
Defined.

(** C7 as stated fails for a Rule Set that holds an empty term: its matcher
    is the empty pattern, which matches the empty description with span 0. *)
Lemma C7_counterexample :
  load_rules_json main_py (JObj [("Food", JObj [("Groceries", JArr [JStr ""])])])
  = inr (blank_rules main_py) /\
  search (make_loose_regex main_py "") [] = Some (0, 0) /\
  best_match [] (blank_rules main_py) = ("Food", "Groceries") /\
  best_match [] (blank_rules main_py) <> ("Uncategorized", "Other").
Proof.
  repeat split; try (vm_compute; reflexivity). vm_compute. discriminate.
Qed.

(** ** Variants of a term *)

(** C6, as amended.  Let [T] be a rule term of the Rule Set and [v] a variant
    of it: the tokens of [T] in order (for a term without tokens, its trimmed
    text), each up to case, with a run of non-word characters, possibly
    empty, between neighbours.  Let the description be
    [prefix ++ v ++ suffix], where [prefix] does not end and [suffix] does
    not begin with a letter or digit.  Then the matcher of [T] matches the
    description, and [best_match] returns the pair that owns [T] provided
    that no rule met before it matches with a span at least as long and no
    rule met after it matches with a strictly longer span. *)
Theorem C6_variant_resolves
        (f : source_file) (rules : RuleSet)
        (l1 l2 : list (string * string * Pattern))
        (cat sub : string) (T prefix v suffix : str) :
  triples rules = l1 ++ (cat, sub, make_loose_regex f T) :: l2 ->
  spaced (units T) v ->
  ends_clear prefix ->
  starts_clear suffix ->
  (forall t, In t l1 ->
             (span (snd t) (prefix ++ v ++ suffix)
              < span (make_loose_regex f T) (prefix ++ v ++ suffix))%Z) ->
  (forall t, In t l2 ->
             (span (snd t) (prefix ++ v ++ suffix)
              <= span (make_loose_regex f T) (prefix ++ v ++ suffix))%Z) ->
  (exists a b,
      search (make_loose_regex f T) (prefix ++ v ++ suffix) = Some (a, b) /\
      a <= List.length prefix) /\
  best_match (prefix ++ v ++ suffix) rules = (cat, sub).
Proof.
  intros Ht Hv Hpre Hsuf H1 H2.
  destruct (@term_found f T v prefix suffix Hv Hpre Hsuf) as (a & b & Hs & Hle).
  split; [eauto |].
  apply (@first_longest_wins _ rules l1 l2 cat sub (make_loose_regex f T) Ht);
    auto.
  apply (span_found _ _ Hs).
Qed.

Lemma C6_variant_resolves_witness :
  (exists a b,
      search (make_loose_regex main_py " Whole Foods ")
             (list_ascii_of_string "POS "
              ++ list_ascii_of_string "WHOLE--foods"
              ++ list_ascii_of_string " MARKET #532") = Some (a, b) /\
      a <= List.length (list_ascii_of_string "POS ")) /\
  best_match (list_ascii_of_string "POS "
              ++ list_ascii_of_string "WHOLE--foods"
              ++ list_ascii_of_string " MARKET #532")
             [("Food", [("Groceries", [make_loose_regex main_py " Whole Foods "])]);
              ("Shopping", [("General", [make_loose_regex main_py "market"])])]
  = ("Food", "Groceries").
Proof.
  apply (@C6_variant_resolves
           main_py
           [("Food", [("Groceries", [make_loose_regex main_py " Whole Foods "])]);
            ("Shopping", [("General", [make_loose_regex main_py "market"])])]
           [] [("Shopping", "General", make_loose_regex main_py "market")]
           "Food" "Groceries" " Whole Foods " "POS " "WHOLE--foods" " MARKET #532").
  - reflexivity.
  - apply spacedb_sound. vm_compute. reflexivity.
  - intros c H. vm_compute in H. injection H as <-. reflexivity.
  - intros c H. vm_compute in H. injection H as <-. reflexivity.
  - intros t [].
  - intros t [<- | []]. vm_compute. discriminate.
Defined.

(** C6 as stated fails on a tie: "cd" is a rule term, the description
    "ab cd" is "ab " followed by "cd", no rule matches with a span longer
    than that of "cd", yet the result is the pair of "ab", met first with an
    equal span. *)
Lemma C6_counterexample :
  In ("B", "y", make_loose_regex main_py "cd") (triples (tie_rules main_py)) /\
  spacedb (units "cd") "cd" = true /\
  list_ascii_of_string "ab cd"
  = list_ascii_of_string "ab " ++ list_ascii_of_string "cd" ++ [] /\
  before None (list_ascii_of_string "ab ") = Some " "%char /\
  is_alnum " " = false /\
  span (make_loose_regex main_py "ab") "ab cd" = 2%Z /\
  span (make_loose_regex main_py "cd") "ab cd" = 2%Z /\
  best_match "ab cd" (tie_rules main_py) = ("A", "x") /\
  best_match "ab cd" (tie_rules main_py) <> ("B", "y").
Proof.
  repeat split; try (vm_compute; reflexivity).
  - right. left. reflexivity.
  - vm_compute. discriminate.
Qed.

(** ** Malformed rules *)

Lemma mapM_fail (f : source_file) (elems : list json) :
  existsb (fun t => negb (is_string t)) elems = true ->
  mapM (make_loose_regex_dyn f) elems = inl AttributeError.
Proof.
  induction elems as [| t elems IH]; simpl; [discriminate |].
  intros H. destruct t; simpl in *; try reflexivity.
  rewrite (IH H). reflexivity.
Qed.

Lemma foldM_fail {A S : Type} (g : S -> A -> result S) (bad : A -> bool) (l : list A) :
  (forall s a, bad a = true -> exists e, g s a = inl e) ->
  existsb bad l = true ->
  forall s, exists e, foldM g l s = inl e.
Proof.
  intros Hg. induction l as [| a l IH]; simpl; [discriminate |].
  intros H s. destruct (g s a) as [e | s'] eqn:E; simpl; [eauto |].
  destruct (bad a) eqn:Ea.
  - destruct (Hg s a Ea) as (e & He). congruence.
  - apply IH. exact H.
Qed.

(** C8, as amended.  When the rules document holds a value that is not a
    mapping where a mapping is expected, or a list of terms with a term that
    is not a string, [load_rules_json] raises one of Python's own
    exceptions, AttributeError or TypeError (the code has no configuration
    error of its own), and returns no Rule Set, partial or whole.  Other
    departures from the expected shape are not covered: a string or a
    mapping in the place of a list of terms is loaded. *)
Theorem C8_malformed_rules_raise (f : source_file) (raw : json) :
  malformed raw = true ->
  (exists e, load_rules_json f raw = inl e /\
             (e = AttributeError \/ e = TypeError)) /\
  (forall rules, load_rules_json f raw <> inr rules).
Proof.
  intros H.
  assert (G : exists e, load_rules_json f raw = inl e).
  { unfold load_rules_json.
    destruct raw as [| ? | ? | ? | ? | cats]; simpl; eauto.
    simpl in H.
    apply (foldM_fail _ (fun e => bad_subs (snd e))); [| exact H].
    intros compiled [category subs] Hbad. simpl in Hbad.
    destruct subs as [| ? | ? | ? | ? | ss]; simpl; eauto.
    simpl in Hbad.
    destruct (@foldM_fail _ _
                (fun (d : dict (list Pattern)) (e : string * json) =>
                   let (subcat, terms) := e in
                   ts <- iterate terms ;;
                   pats <- mapM (make_loose_regex_dyn f) ts ;;
                   ret (dict_set d subcat pats))
                (fun e => bad_terms (snd e)) ss) with (s := @nil (string * list Pattern))
      as (e & He); [| exact Hbad | rewrite He; simpl; eauto].
    intros d [subcat terms] Hb. simpl in Hb.
    destruct terms; try discriminate. simpl.
    rewrite (mapM_fail f _ Hb). simpl. eauto. }
  destruct G as (e & He). split.
  - exists e. split; [exact He | destruct e; auto].
  - intros rules Hr. congruence.
Qed.

Lemma C8_malformed_rules_raise_witness :
  (exists e,
      load_rules_json main_py
        (JObj [("Food", JObj [("Groceries", JArr [JStr "whole foods"; JNumber 7])])])
      = inl e /\
      (e = AttributeError \/ e = TypeError)) /\
  (forall rules,
      load_rules_json main_py
        (JObj [("Food", JObj [("Groceries", JArr [JStr "whole foods"; JNumber 7])])])
      <> inr rules).
Proof.
  apply (@C8_malformed_rules_raise main_py
           (JObj [("Food", JObj [("Groceries", JArr [JStr "whole foods"; JNumber 7])])])).
  reflexivity.
Defined.

(** C8 as stated fails on two counts.  A document whose list of terms is a
    string, or a mapping, does not have the expected shape, yet
    [load_rules_json] returns a Rule Set for it: the string is iterated
    character by character, the mapping key by key.  And where it does
    fail, on a term that is not a string, what is raised is the
    AttributeError of [term.strip()], not a configuration error. *)
Lemma C8_counterexample :
  well_formed (JObj [("Food", JObj [("Groceries", JStr "ab")])]) = false /\
  load_rules_json main_py (JObj [("Food", JObj [("Groceries", JStr "ab")])])
  = inr [("Food", [("Groceries", [make_loose_regex main_py "a";
                                  make_loose_regex main_py "b"])])] /\
  well_formed (JObj [("Food", JObj [("Groceries", JObj [("gas", JNumber 1)])])])
  = false /\
  load_rules_json categorize_trans_py
                  (JObj [("Food", JObj [("Groceries", JObj [("gas", JNumber 1)])])])
  = inr [("Food", [("Groceries", [make_loose_regex categorize_trans_py "gas"])])] /\
  load_rules_json main_py
                  (JObj [("Food", JObj [("Groceries", JArr [JStr "whole foods"; JNumber 7])])])
  = inl AttributeError.
Proof. repeat split; vm_compute; reflexivity. Qed.

(** A string where the list of terms is expected is not rejected: it is
    iterated character by character. *)
Example string_for_term_list :
  load_rules_json main_py (JObj [("Food", JObj [("Groceries", JStr "ab")])])
  = inr [("Food", [("Groceries", [make_loose_regex main_py "a";
                                  make_loose_regex main_py "b"])])].
Proof. vm_compute. reflexivity. Qed.

(** ** Purity *)

Lemma for_each_pure {A S : Type} (g : S -> A -> S) (l : list A) :
  forall (st : S) (h : Store.store),
    Store.for_each l (fun st a => Store.pure (g st a)) st h = (fold_left g l st, h).
Proof.
  induction l as [| a l IH]; intros st h; simpl; [reflexivity |].
  unfold Store.seq, Store.pure at 1. apply IH.
Qed.

Lemma for_each_ext {A S : Type} (body : S -> A -> Store.M S) (g : S -> A -> S)
      (l : list A) :
  (forall st a h, body st a h = (g st a, h)) ->
  forall (st : S) (h : Store.store),
    Store.for_each l body st h = (fold_left g l st, h).
Proof.
  intros Hb. induction l as [| a l IH]; intros st h; simpl; [reflexivity |].
  unfold Store.seq. rewrite Hb. apply IH.
Qed.

Lemma store_best_match (desc : str) (h : Store.store) :
  Store.best_match desc h = (best_match desc (Store.rules_obj h), h).
Proof.
  unfold Store.best_match, Store.seq at 1 2, Store.read_rules, best_match,
    best_match_loop.
  rewrite (@for_each_ext _ _ _
             (fun st (entry : string * dict (list Pattern)) =>
                let (cat, subs) := entry in
                fold_left
                  (fun st (e : string * list Pattern) =>
                     let (sub, patterns) := e in
                     fold_left (consider desc cat sub) patterns st)
                  subs st)).
  - reflexivity.
  - intros st [cat subs] h'.
    apply for_each_ext. intros st' [sub patterns] h''.
    apply for_each_pure.
Qed.

(** C9.  Two calls of [best_match] in a row on the same description return
    the same pair, the pair is a function of the description and the Rule
    Set alone, and each call leaves the store, hence the Rule Set,
    unchanged. *)
Theorem C9_best_match_pure (desc : str) (h : Store.store) :
  let r1 := Store.best_match desc h in
  let r2 := Store.best_match desc (snd r1) in
  fst r1 = fst r2 /\
  fst r1 = best_match desc (Store.rules_obj h) /\
  snd r1 = h /\ snd r2 = h.
Proof.
  cbv zeta. rewrite !store_best_match. cbn [fst snd].
  rewrite ?store_best_match. cbn [fst snd]. repeat split.
Qed.


(** * Further properties *)

(** ** What tokenisation keeps *)

Lemma concat_filter_nonempty (l : list str) : List.concat (filter nonempty l) = List.concat l.
Proof.
  induction l as [| x l IH]; simpl; [reflexivity |].
  destruct x; simpl; [exact IH | rewrite IH; reflexivity].
Qed.

Lemma split_from_concat (s : str) :
  forall cur b,
    (b = true -> cur = []) ->
    List.concat (split_from s cur b) = cur ++ filter is_word s.
Proof.
  induction s as [| c s IH]; intros cur b Hb; simpl.
  - reflexivity.
  - destruct (is_word c) eqn:E.
    + rewrite IH by discriminate. rewrite <- app_assoc. reflexivity.
    + destruct b.
      * rewrite (Hb eq_refl). rewrite IH by reflexivity. reflexivity.
      * simpl. rewrite IH by reflexivity. reflexivity.
Qed.

Lemma tokens_concat (term : str) :
  List.concat (tokens_of term) = filter is_word term.
Proof.
  unfold tokens_of, split_nonword.
  rewrite concat_filter_nonempty, split_from_concat by discriminate.
  reflexivity.
Qed.

(** X1.  The tokens of a term, put end to end, are the term without its
    non-word characters; each token is non-empty and made of word characters
    only. *)
Theorem X1_tokens_are_the_word_characters (term : str) :
  List.concat (tokens_of term) = filter is_word term /\
  Forall (fun tok => tok <> [] /\ Forall (fun c => is_word c = true) tok)
         (tokens_of term).
Proof. split; [apply tokens_concat | apply tokens_of_wf]. Qed.

(** ** Patterns that match alike *)

Lemma node_equiv_refl (n : node) : node_equiv n n.
Proof. destruct n; simpl; auto using eq_I_refl. Qed.

Lemma pattern_equiv_refl (p : Pattern) : pattern_equiv p p.
Proof. induction p; constructor; auto using node_equiv_refl. Qed.

Lemma match_here_equiv (p p' : Pattern) :
  pattern_equiv p p' ->
  forall prev s, match_here p prev s = match_here p' prev s.
Proof.
  induction 1 as [| n n' p p' Hn Hp IH]; intros prev s; [reflexivity |].
  destruct n as [c | | cs | cs], n' as [c' | | cs' | cs']; simpl in Hn;
    try contradiction.
  - simpl. destruct s as [| d s]; [reflexivity |].
    unfold eq_I in *. apply Ascii.eqb_eq in Hn. rewrite Hn, IH. reflexivity.
  - revert prev. induction s as [| d s IHs]; intros prev;
      rewrite (star_eq p prev), (star_eq p' prev); [apply IH |].
    destruct (negb (is_word d)); [| apply IH].
    rewrite IHs, IH. reflexivity.
  - simpl. destruct prev as [c |]; [rewrite Hn |]; rewrite IH; reflexivity.
  - simpl. destruct s as [| d s]; [| rewrite Hn]; rewrite IH; reflexivity.
Qed.

Lemma search_equiv (p p' : Pattern) (s : str) :
  pattern_equiv p p' -> search p s = search p' s.
Proof.
  intros H. unfold search. generalize (@None ascii) 0.
  induction s as [| d s IH]; intros prev i; simpl;
    rewrite (match_here_equiv H); [reflexivity |].
  rewrite IH. reflexivity.
Qed.

Lemma files_compile_alike (T : str) :
  pattern_equiv (make_loose_regex main_py T) (make_loose_regex categorize_trans_py T).
Proof.
  unfold make_loose_regex. cbv zeta.
  destruct (tokens_of (strip T)) as [| tok toks]; [apply pattern_equiv_refl |].
  constructor.
  - intros d. rewrite !guard_class_spec. reflexivity.
  - apply Forall2_app; [apply pattern_equiv_refl |].
    constructor; [| constructor].
    intros d. rewrite !guard_class_spec. reflexivity.
Qed.

Lemma mapM_files_alike (elems : list json) :
  result_rel (Forall2 pattern_equiv)
             (mapM (make_loose_regex_dyn main_py) elems)
             (mapM (make_loose_regex_dyn categorize_trans_py) elems).
Proof.
  induction elems as [| t elems IH]; simpl; [constructor |].
  destruct t; simpl; try reflexivity.
  destruct (mapM (make_loose_regex_dyn main_py) elems),
           (mapM (make_loose_regex_dyn categorize_trans_py) elems);
    simpl in *; try contradiction; auto.
  constructor; [apply files_compile_alike | exact IH].
Qed.

Lemma dict_set_rel {V V' : Type} (R : V -> V' -> Prop)
      (d : dict V) (d' : dict V') (k : string) (v : V) (v' : V') :
  Forall2 (fun e e' => fst e = fst e' /\ R (snd e) (snd e')) d d' ->
  R v v' ->
  Forall2 (fun e e' => fst e = fst e' /\ R (snd e) (snd e'))
          (dict_set d k v) (dict_set d' k v').
Proof.
  intros H Hv. induction H as [| [k1 v1] [k2 v2] d d' [Hk Hr] Hd IH]; simpl.
  - constructor; [split; auto | constructor].
  - simpl in Hk. subst k2. destruct (String.eqb k1 k).
    + constructor; [split; auto | exact Hd].
    + constructor; [split; auto | exact IH].
Qed.

Lemma foldM_rel {A S S' : Type} (R : S -> S' -> Prop)
      (g : S -> A -> result S) (g' : S' -> A -> result S') (l : list A) :
  (forall s s' a, R s s' -> result_rel R (g s a) (g' s' a)) ->
  forall s s', R s s' -> result_rel R (foldM g l s) (foldM g' l s').
Proof.
  intros Hg. induction l as [| a l IH]; intros s s' Hs; simpl; [exact Hs |].
  specialize (Hg s s' a Hs).
  destruct (g s a), (g' s' a); simpl in *; try contradiction; auto.
Qed.

Lemma load_files_alike (raw : json) :
  result_rel rules_equiv
             (load_rules_json main_py raw)
             (load_rules_json categorize_trans_py raw).
Proof.
  unfold load_rules_json.
  destruct (items raw) as [e | cats]; simpl; [reflexivity |].
  apply foldM_rel; [| constructor].
  intros r r' [category subs] Hr.
  destruct (items subs) as [e | ss]; simpl; [reflexivity |].
  pose proof (@foldM_rel _ _ _ subs_equiv
                (fun (d : dict (list Pattern)) (e : string * json) =>
                   let (subcat, terms) := e in
                   ts <- iterate terms ;;
                   pats <- mapM (make_loose_regex_dyn main_py) ts ;;
                   ret (dict_set d subcat pats))
                (fun (d : dict (list Pattern)) (e : string * json) =>
                   let (subcat, terms) := e in
                   ts <- iterate terms ;;
                   pats <- mapM (make_loose_regex_dyn categorize_trans_py) ts ;;
                   ret (dict_set d subcat pats))
                ss) as H.
  match type of H with ?P -> _ => assert (Hbody : P) end.
  { intros d d' [subcat terms] Hd.
    destruct (iterate terms) as [e | ts]; simpl; [reflexivity |].
    pose proof (mapM_files_alike ts) as Hm.
    destruct (mapM (make_loose_regex_dyn main_py) ts),
             (mapM (make_loose_regex_dyn categorize_trans_py) ts);
      simpl in *; try contradiction; auto.
    apply dict_set_rel; assumption. }
  specialize (H Hbody [] [] (Forall2_nil _)).
  match type of H with
  | result_rel _ ?x ?y => destruct x, y
  end; simpl in *; try contradiction; auto.
  apply dict_set_rel; assumption.
Qed.

Lemma triples_equiv (r r' : RuleSet) :
  rules_equiv r r' ->
  Forall2 (fun t t' => fst t = fst t' /\ pattern_equiv (snd t) (snd t'))
          (triples r) (triples r').
Proof.
  unfold triples.
  induction 1 as [| [cat subs] [cat' subs'] r r' [Hc Hs] _ IH]; simpl;
    [constructor |].
  simpl in Hc, Hs. subst cat'. apply Forall2_app; [| exact IH].
  clear IH. induction Hs as [| [sub ps] [sub' ps'] subs subs' [Hk Hp] _ IHs];
    simpl; [constructor |].
  simpl in Hk, Hp. subst sub'. apply Forall2_app; [| exact IHs].
  clear IHs. induction Hp; simpl; constructor; auto.
Qed.

Lemma best_match_equiv (desc : str) (r r' : RuleSet) :
  rules_equiv r r' -> best_match desc r = best_match desc r'.
Proof.
  intros H. apply triples_equiv in H. unfold best_match.
  rewrite !best_match_loop_triples. f_equal.
  generalize ((-1)%Z, sentinel).
  induction H as [| [[c s] p] [[c' s'] p'] l l' [Hf Hp] _ IH]; intros st;
    simpl; [reflexivity |].
  simpl in Hf, Hp. injection Hf as <- <-. rewrite IH. f_equal.
  unfold step, consider. simpl. rewrite (search_equiv desc Hp). reflexivity.
Qed.

(** X2.  The two source files behave alike: a term compiled by either
    finds the same span in every description, and on every rules document
    [load_rules_json] raises the same exception in both or returns Rule Sets
    that resolve every description to the same pair. *)
Theorem X2_source_files_agree (raw : json) (T desc : str) :
  search (make_loose_regex main_py T) desc
  = search (make_loose_regex categorize_trans_py T) desc /\
  same_outcome desc (load_rules_json main_py raw)
               (load_rules_json categorize_trans_py raw).
Proof.
  split; [apply search_equiv, files_compile_alike |].
  pose proof (load_files_alike raw) as H. unfold same_outcome.
  destruct (load_rules_json main_py raw),
           (load_rules_json categorize_trans_py raw); simpl in *; auto.
  split; [exact H | apply best_match_equiv, H].
Qed.

(** ** Letter case *)

Lemma eq_I_lower (c d : ascii) : eq_I c d = true -> lower c = lower d.
Proof. apply Ascii.eqb_eq. Qed.

Lemma eq_I_space (c d : ascii) : eq_I c d = true -> is_space d = is_space c.
Proof.
  intros H. apply eqb_prop. revert H.
  generalize (forall_chars
    (fun c => forallb (fun d => implb (eq_I c d) (Bool.eqb (is_space d) (is_space c))) all_chars)).
  intros G. specialize (G ltac:(vm_compute; reflexivity) c).
  rewrite forallb_forall in G. specialize (G d (all_chars_complete d)).
  destruct (eq_I c d); [intros _; exact G | discriminate].
Qed.

Lemma eq_I_right (c d d' : ascii) : eq_I d d' = true -> eq_I c d = eq_I c d'.
Proof. intros H. unfold eq_I. rewrite (eq_I_lower _ _ H). reflexivity. Qed.

Lemma in_charset_I_lower (cs : charset) (d d' : ascii) :
  lower d = lower d' -> in_charset_I cs d = in_charset_I cs d'.
Proof. intros H. unfold in_charset_I, eq_I. rewrite H. reflexivity. Qed.

Lemma match_here_case (p : Pattern) :
  forall prev prev' s s',
    match prev, prev' with
    | Some c, Some c' => eq_I c c' = true
    | None, None => True
    | _, _ => False
    end ->
    same_I s s' ->
    match_here p prev s = match_here p prev' s'.
Proof.
  induction p as [| n p IH]; intros prev prev' s s' Hprev Hs; [reflexivity |].
  destruct n as [c | | cs | cs].
  - destruct Hs as [| d d' s s' Hd Hs]; simpl; [reflexivity |].
    rewrite (eq_I_right c _ _ Hd).
    rewrite (IH (Some d) (Some d') s s' Hd Hs). reflexivity.
  - revert prev prev' Hprev.
    induction Hs as [| d d' s s' Hd Hs IHs]; intros prev prev' Hprev;
      rewrite (star_eq p prev), (star_eq p prev').
    + apply IH; [exact Hprev | constructor].
    + rewrite (eq_I_word _ _ Hd).
      rewrite (IHs (Some d) (Some d') Hd).
      rewrite (IH prev prev' (d :: s) (d' :: s') Hprev (Forall2_cons _ _ Hd Hs)).
      reflexivity.
  - simpl. destruct prev as [c |], prev' as [c' |]; try contradiction.
    + rewrite (in_charset_I_lower cs _ _ (eq_I_lower _ _ Hprev)).
      rewrite (IH (Some c) (Some c') s s' Hprev Hs). reflexivity.
    + apply IH; assumption.
  - simpl. destruct Hs as [| d d' s s' Hd Hs].
    + apply IH; [exact Hprev | constructor].
    + rewrite (in_charset_I_lower cs _ _ (eq_I_lower _ _ Hd)).
      rewrite (IH prev prev' (d :: s) (d' :: s') Hprev (Forall2_cons _ _ Hd Hs)).
      reflexivity.
Qed.

Lemma search_from_case (p : Pattern) (s s' : str) :
  same_I s s' ->
  forall prev prev' i,
    match prev, prev' with
    | Some c, Some c' => eq_I c c' = true
    | None, None => True
    | _, _ => False
    end ->
    search_from p prev s i = search_from p prev' s' i.
Proof.
  induction 1 as [| d d' s s' Hd Hs IH]; intros prev prev' i Hprev; simpl.
  - rewrite (@match_here_case p prev prev' [] [] Hprev (Forall2_nil _)).
    reflexivity.
  - rewrite (@match_here_case p prev prev' (d :: s) (d' :: s') Hprev
               (Forall2_cons _ _ Hd Hs)).
    rewrite (IH (Some d) (Some d') (S i) Hd). reflexivity.
Qed.

Lemma search_case (p : Pattern) (s s' : str) :
  same_I s s' -> search p s = search p s'.
Proof. intros H. apply (search_from_case p H None None 0 I). Qed.

(** X3.  Matching ignores the letter case of the description: two
    descriptions that differ in case only give the same span for every
    pattern and the same pair for every Rule Set. *)
Theorem X3_description_case_is_ignored (desc desc' : str) :
  same_I desc desc' ->
  (forall pat, search pat desc = search pat desc') /\
  (forall rules, best_match desc rules = best_match desc' rules).
Proof.
  intros H.
  assert (Hs : forall pat, search pat desc = search pat desc')
    by (intros pat; apply search_case, H).
  split; [exact Hs |].
  intros rules. unfold best_match. rewrite !best_match_loop_triples. f_equal.
  generalize ((-1)%Z, sentinel).
  induction (triples rules) as [| t l IH]; intros st; simpl; [reflexivity |].
  rewrite IH. f_equal. unfold step, consider. rewrite Hs. reflexivity.
Qed.

Lemma X3_description_case_is_ignored_witness :
  (forall pat, search pat "Uber Cool TV" = search pat "UBER cool tv") /\
  (forall rules, best_match "Uber Cool TV" rules = best_match "UBER cool tv" rules).
Proof.
  apply (@X3_description_case_is_ignored "Uber Cool TV" "UBER cool tv").
  repeat constructor.
Defined.

Lemma same_I_lstrip (s s' : str) : same_I s s' -> same_I (lstrip s) (lstrip s').
Proof.
  induction 1 as [| c d s s' Hcd Hs IH]; simpl; [constructor |].
  rewrite (eq_I_space _ _ Hcd). destruct (is_space c); [exact IH |].
  constructor; assumption.
Qed.

Lemma same_I_rev (s s' : str) : same_I s s' -> same_I (rev s) (rev s').
Proof.
  induction 1 as [| c d s s' Hcd Hs IH]; simpl; [constructor |].
  apply Forall2_app; [exact IH | constructor; [exact Hcd | constructor]].
Qed.

Lemma same_I_strip (s s' : str) : same_I s s' -> same_I (strip s) (strip s').
Proof.
  intros H. unfold strip, rstrip.
  apply same_I_rev, same_I_lstrip, same_I_rev, same_I_lstrip, H.
Qed.

Lemma same_I_split_from (s s' : str) :
  same_I s s' ->
  forall cur cur' b,
    same_I cur cur' -> Forall2 same_I (split_from s cur b) (split_from s' cur' b).
Proof.
  induction 1 as [| c d s s' Hcd Hs IH]; intros cur cur' b Hcur; simpl.
  - constructor; [exact Hcur | constructor].
  - rewrite (eq_I_word _ _ Hcd). destruct (is_word c).
    + apply IH. apply Forall2_app; [exact Hcur | constructor; [exact Hcd | constructor]].
    + destruct b; [apply IH; constructor |].
      constructor; [exact Hcur | apply IH; constructor].
Qed.

Lemma same_I_tokens (s s' : str) :
  same_I s s' -> Forall2 same_I (tokens_of s) (tokens_of s').
Proof.
  intros H. unfold tokens_of, split_nonword.
  pose proof (@same_I_split_from s s' H [] [] false (Forall2_nil _)) as G.
  induction G as [| t t' l l' Ht _ IH]; simpl; [constructor |].
  destruct Ht; simpl; [exact IH | constructor; [constructor; assumption | exact IH]].
Qed.

Lemma escape_equiv (t t' : str) : same_I t t' -> pattern_equiv (escape t) (escape t').
Proof. induction 1; simpl; constructor; assumption. Qed.

Lemma join_equiv (sep : Pattern) (ps ps' : list Pattern) :
  Forall2 pattern_equiv ps ps' -> pattern_equiv (join sep ps) (join sep ps').
Proof.
  induction 1 as [| p p' ps ps' Hp Hps IH]; [constructor |].
  destruct Hps as [| q q' ps ps' Hq Hps]; [exact Hp |].
  change (pattern_equiv (p ++ sep ++ join sep (q :: ps))
                        (p' ++ sep ++ join sep (q' :: ps'))).
  apply Forall2_app; [exact Hp |].
  apply Forall2_app; [apply pattern_equiv_refl | exact IH].
Qed.

Lemma term_case_equiv (f : source_file) (T T' : str) :
  same_I T T' -> pattern_equiv (make_loose_regex f T) (make_loose_regex f T').
Proof.
  intros H. apply same_I_strip in H. unfold make_loose_regex. cbv zeta.
  pose proof (same_I_tokens H) as Ht.
  destruct Ht as [| tok tok' toks toks' Htok Htoks]; [apply escape_equiv, H |].
  constructor; [simpl; reflexivity |].
  apply Forall2_app.
  - apply join_equiv. constructor; [apply escape_equiv, Htok |].
    induction Htoks; constructor; auto using escape_equiv.
  - constructor; [simpl; reflexivity | constructor].
Qed.

(** Whitespace around a term. *)

Lemma lstrip_spaces (ws s : str) :
  Forall (fun c => is_space c = true) ws -> lstrip (ws ++ s) = lstrip s.
Proof. induction 1 as [| c ws Hc _ IH]; simpl; [reflexivity | rewrite Hc; exact IH]. Qed.

Lemma lstrip_all_spaces (ws : str) :
  Forall (fun c => is_space c = true) ws -> lstrip ws = [].
Proof.
  intros H. rewrite <- (app_nil_r ws). rewrite (lstrip_spaces [] H). reflexivity.
Qed.

Lemma lstrip_split (s : str) :
  exists ws, s = ws ++ lstrip s /\ Forall (fun c => is_space c = true) ws.
Proof.
  induction s as [| c s (ws & IH & Hws)]; simpl.
  - exists []. split; [reflexivity | constructor].
  - destruct (is_space c) eqn:E.
    + exists (c :: ws). split; [simpl; congruence | constructor; assumption].
    + exists []. split; [reflexivity | constructor].
Qed.

Lemma lstrip_head (s : str) (c : ascii) :
  hd_error (lstrip s) = Some c -> is_space c = false.
Proof.
  induction s as [| d s IH]; simpl; [discriminate |].
  destruct (is_space d) eqn:E; [exact IH |]. simpl. congruence.
Qed.

Lemma lstrip_fixed (s : str) :
  (forall c, hd_error s = Some c -> is_space c = false) -> lstrip s = s.
Proof.
  destruct s as [| c s]; simpl; [reflexivity |].
  intros H. rewrite (H c eq_refl). reflexivity.
Qed.

Lemma rstrip_spaces (s ws : str) :
  Forall (fun c => is_space c = true) ws -> rstrip (s ++ ws) = rstrip s.
Proof.
  intros H. unfold rstrip. rewrite rev_app_distr.
  rewrite lstrip_spaces by (apply Forall_rev, H). reflexivity.
Qed.

Lemma strip_padding (ws T ws' : str) :
  Forall (fun c => is_space c = true) ws ->
  Forall (fun c => is_space c = true) ws' ->
  strip (ws ++ T ++ ws') = strip T.
Proof.
  intros H H'. unfold strip. rewrite lstrip_spaces by exact H.
  destruct (lstrip_split T) as (w0 & HT & Hw0).
  destruct (lstrip T) as [| c t] eqn:E.
  - rewrite app_nil_r in HT. subst T.
    rewrite lstrip_all_spaces; [reflexivity |].
    apply Forall_app. split; assumption.
  - assert (Hc : is_space c = false).
    { apply (lstrip_head T). rewrite E. reflexivity. }
    rewrite HT at 1. rewrite <- app_assoc. rewrite lstrip_spaces by exact Hw0.
    simpl. rewrite Hc. change (c :: t ++ ws') with ((c :: t) ++ ws').
    apply rstrip_spaces, H'.
Qed.

(** X4.  A rule term may be written in any letter case and with any
    whitespace around it: the compiled matchers find the same span in every
    description. *)
Theorem X4_term_case_and_padding_are_ignored
        (f : source_file) (T T' ws ws' desc : str) :
  same_I T T' ->
  Forall (fun c => is_space c = true) ws ->
  Forall (fun c => is_space c = true) ws' ->
  search (make_loose_regex f (ws ++ T' ++ ws')) desc
  = search (make_loose_regex f T) desc.
Proof.
  intros H Hws Hws'.
  assert (E : make_loose_regex f (ws ++ T' ++ ws') = make_loose_regex f T').
  { unfold make_loose_regex. rewrite (strip_padding T' Hws Hws'). reflexivity. }
  rewrite E. symmetry. apply search_equiv, term_case_equiv, H.
Qed.

Lemma X4_term_case_and_padding_are_ignored_witness :
  search (make_loose_regex main_py
            (list_ascii_of_string "  " ++ list_ascii_of_string "WHOLE Foods"
             ++ list_ascii_of_string " "))
         "x whole-foods mkt"
  = search (make_loose_regex main_py "whole foods") "x whole-foods mkt".
Proof.
  apply (@X4_term_case_and_padding_are_ignored
           main_py "whole foods" "WHOLE Foods" "  " " " "x whole-foods mkt").
  - repeat constructor.
  - repeat constructor.
  - repeat constructor.
Defined.

(** ** What a match is made of *)

Lemma escape_inv (tok : str) :
  forall q prev s n,
    match_here (escape tok ++ q) prev s = Some n ->
    exists v s' m,
      s = v ++ s' /\ same_I tok v /\
      match_here q (before prev v) s' = Some m /\ n = List.length v + m.
Proof.
  induction tok as [| c tok IH]; intros q prev s n H.
  - exists [], s, n. repeat split; [constructor | exact H].
  - simpl in H. destruct s as [| d s]; [discriminate |].
    destruct (eq_I c d) eqn:E; [| discriminate].
    destruct (match_here (escape tok ++ q) (Some d) s) as [k |] eqn:Ek;
      [| discriminate].
    injection H as <-.
    destruct (IH _ _ _ _ Ek) as (v & s' & m & -> & Hv & Hm & ->).
    exists (d :: v), s', m. repeat split; [constructor; assumption | exact Hm].
Qed.

Lemma star_inv (q : Pattern) :
  forall s prev n,
    match_here (NotWordStar :: q) prev s = Some n ->
    exists sep s' m,
      s = sep ++ s' /\ nonword_run sep /\
      match_here q (before prev sep) s' = Some m /\ n = List.length sep + m.
Proof.
  induction s as [| d s IH]; intros prev n H; rewrite star_eq in H.
  - exists [], [], n. repeat split; [constructor | exact H].
  - destruct (is_word d) eqn:E; cbn [negb] in H.
    + exists [], (d :: s), n. repeat split; [constructor | exact H].
    + destruct (match_here (NotWordStar :: q) (Some d) s) as [k |] eqn:Ek.
      * injection H as <-.
        destruct (IH _ _ Ek) as (sep & s' & m & -> & Hsep & Hm & ->).
        exists (d :: sep), s', m. repeat split; [constructor; assumption | exact Hm].
      * exists [], (d :: s), n. repeat split; [constructor | exact H].
Qed.

Lemma body_inv (toks : list str) :
  toks <> [] ->
  forall q prev s n,
    match_here (join [NotWordStar] (map escape toks) ++ q) prev s = Some n ->
    exists v s' m,
      s = v ++ s' /\ spaced toks v /\
      match_here q (before prev v) s' = Some m /\ n = List.length v + m.
Proof.
  induction toks as [| tok toks IH]; [congruence |].
  intros _ q prev s n H. destruct toks as [| t toks].
  - simpl in H. destruct (escape_inv _ _ _ _ H) as (v & s' & m & -> & Hv & Hm & ->).
    exists v, s', m. repeat split; [apply spaced_one, Hv | exact Hm].
  - change (join [NotWordStar] (map escape (tok :: t :: toks)))
      with (escape tok ++ [NotWordStar] ++ join [NotWordStar] (map escape (t :: toks)))
      in H.
    rewrite <- !app_assoc in H. cbn [app] in H.
    destruct (escape_inv _ _ _ _ H) as (v & s1 & m1 & -> & Hv & H1 & ->).
    destruct (star_inv _ _ _ H1) as (sep & s2 & m2 & -> & Hsep & H2 & ->).
    destruct (IH ltac:(discriminate) _ _ _ _ H2)
      as (rest & s3 & m3 & -> & Hrest & H3 & ->).
    exists (v ++ sep ++ rest), s3, m3. repeat split.
    + rewrite <- !app_assoc. reflexivity.
    + apply spaced_cons; assumption.
    + rewrite !before_app. exact H3.
    + rewrite !length_app. lia.
Qed.

Lemma compiled_inv (f : source_file) (T : str) (prev : option ascii) (s : str) (n : nat) :
  match_here (make_loose_regex f T) prev s = Some n ->
  exists v s', s = v ++ s' /\ spaced (units T) v /\ n = List.length v.
Proof.
  unfold make_loose_regex, units. cbv zeta.
  destruct (tokens_of (strip T)) as [| tok toks] eqn:E; intros H.
  - rewrite <- (app_nil_r (escape (strip T))) in H.
    destruct (escape_inv _ _ _ _ H) as (v & s' & m & -> & Hv & Hm & ->).
    simpl in Hm. injection Hm as <-.
    exists v, s'. repeat split; [apply spaced_one, Hv | lia].
  - cbn [app match_here] in H.
    assert (H' : match_here (join [NotWordStar] (map escape (tok :: toks))
                             ++ [NotAhead (guard_class f)]) prev s = Some n).
    { destruct prev as [c |]; [destruct (in_charset_I (guard_class f) c) |];
        [discriminate | exact H | exact H]. }
    destruct (@body_inv (tok :: toks) ltac:(discriminate) _ _ _ _ H')
      as (v & s' & m & -> & Hv & Hm & ->).
    assert (m = 0).
    { simpl in Hm. destruct s' as [| d s'];
        [| destruct (in_charset_I (guard_class f) d)]; congruence. }
    subst m. exists v, s'. repeat split; [exact Hv | lia].
Qed.

(** X5.  Whatever the matcher of a term finds is a variant of the term: the
    text between the two offsets is the tokens of the term in order (for a
    term without tokens, its trimmed text), each up to letter case, with
    nothing but non-word characters between them. *)
Theorem X5_matched_text_is_a_variant
        (f : source_file) (T desc : str) (a b : nat) :
  search (make_loose_regex f T) desc = Some (a, b) ->
  exists pre v post,
    desc = pre ++ v ++ post /\ List.length pre = a /\ a + List.length v = b /\
    spaced (units T) v.
Proof.
  intros H. apply search_from_sound in H.
  destruct H as (pre & post & n & -> & -> & -> & Hm).
  destruct (compiled_inv _ _ _ _ Hm) as (v & s' & -> & Hv & ->).
  exists pre, v, s'. repeat split; auto.
Qed.

Lemma X5_matched_text_is_a_variant_witness :
  exists pre v post,
    list_ascii_of_string "x WHOLE-foods mkt" = pre ++ v ++ post /\
    List.length pre = 2 /\ 2 + List.length v = 13 /\
    spaced (units "whole foods") v.
Proof.
  apply (@X5_matched_text_is_a_variant main_py "whole foods" "x WHOLE-foods mkt" 2 13).
  vm_compute. reflexivity.
Defined.

(** ** The result of the resolver *)

Lemma first_maximum {A : Type} (g : A -> Z) (l : list A) :
  l <> [] ->
  exists l1 x l2,
    l = l1 ++ x :: l2 /\
    (forall y, In y l1 -> (g y < g x)%Z) /\
    (forall y, In y l2 -> (g y <= g x)%Z).
Proof.
  induction l as [| x l IH]; [congruence |]. intros _.
  destruct l as [| x' l].
  - exists [], x, []. repeat split; intros y [].
  - destruct (IH ltac:(discriminate)) as (l1 & m & l2 & E & H1 & H2).
    destruct (Z_lt_le_dec (g x) (g m)) as [Hlt | Hle].
    + exists (x :: l1), m, l2. rewrite E. repeat split; [| exact H2].
      intros y [<- | Hy]; [exact Hlt | apply H1, Hy].
    + exists [], x, (x' :: l). repeat split; [intros y [] |].
      intros y Hy. rewrite E in Hy. apply in_app_or in Hy.
      destruct Hy as [Hy | [<- | Hy]].
      * specialize (H1 y Hy). lia.
      * exact Hle.
      * specialize (H2 y Hy). lia.
Qed.

(** X6.  When some matcher of the Rule Set matches the description, the
    pair that [best_match] returns is owned by a matcher that matches; no
    matcher of the Rule Set has a longer span, and every matcher met before
    it has a strictly shorter one. *)
Theorem X6_result_is_the_first_longest
        (desc : str) (rules : RuleSet) (t0 : string * string * Pattern) (a0 b0 : nat) :
  In t0 (triples rules) ->
  search (snd t0) desc = Some (a0, b0) ->
  exists l1 cat sub pat l2 a b,
    triples rules = l1 ++ (cat, sub, pat) :: l2 /\
    search pat desc = Some (a, b) /\
    (forall t, In t l1 -> (span (snd t) desc < span pat desc)%Z) /\
    (forall t, In t l2 -> (span (snd t) desc <= span pat desc)%Z) /\
    best_match desc rules = (cat, sub).
Proof.
  intros Hin Hs.
  destruct (@first_maximum _ (fun t => span (snd t) desc) (triples rules))
    as (l1 & [[cat sub] pat] & l2 & E & H1 & H2).
  { intros Hnil. rewrite Hnil in Hin. exact Hin. }
  simpl in H1, H2.
  assert (Hpos : (0 <= span pat desc)%Z).
  { pose proof (proj2 (span_found _ _ Hs)) as H0.
    rewrite E in Hin. apply in_app_or in Hin.
    destruct Hin as [Hin | [<- | Hin]].
    - specialize (H1 _ Hin). lia.
    - exact H0.
    - specialize (H2 _ Hin). lia. }
  assert (Hm : exists a b, search pat desc = Some (a, b)).
  { unfold span in Hpos. destruct (search pat desc) as [[a b] |]; [eauto | lia]. }
  destruct Hm as (a & b & Hm).
  exists l1, cat, sub, pat, l2, a, b. repeat split; auto.
  apply (@first_longest_wins desc rules l1 l2 cat sub pat E Hpos H1 H2).
Qed.

Lemma X6_result_is_the_first_longest_witness :
  exists l1 cat sub pat l2 a b,
    triples (tie_rules main_py) = l1 ++ (cat, sub, pat) :: l2 /\
    search pat "ab cd" = Some (a, b) /\
    (forall t, In t l1 -> (span (snd t) "ab cd" < span pat "ab cd")%Z) /\
    (forall t, In t l2 -> (span (snd t) "ab cd" <= span pat "ab cd")%Z) /\
    best_match "ab cd" (tie_rules main_py) = (cat, sub).
Proof.
  apply (@X6_result_is_the_first_longest
           "ab cd" (tie_rules main_py) ("B", "y", make_loose_regex main_py "cd") 3 5).
  - right. left. reflexivity.
  - vm_compute. reflexivity.
Defined.

(** ** Loading a rules document of the expected shape *)

Lemma dict_set_fresh {V : Type} (d : dict V) (k : string) (v : V) :
  existsb (fun e => String.eqb (fst e) k) d = false ->
  dict_set d k v = d ++ [(k, v)].
Proof.
  induction d as [| [k' v'] d IH]; simpl; [reflexivity |].
  intros H. apply orb_false_iff in H. destruct H as [Hk Hd].
  rewrite Hk, (IH Hd). reflexivity.
Qed.

Lemma foldM_dict {A V : Type} (body : dict V -> string * A -> result (dict V))
      (h : string * A -> V) (l : list (string * A)) :
  (forall d e, In e l -> body d e = inr (dict_set d (fst e) (h e))) ->
  distinct_keys l = true ->
  forall d0,
    (forall e, In e l -> existsb (fun e0 => String.eqb (fst e0) (fst e)) d0 = false) ->
    foldM body l d0 = inr (d0 ++ map (fun e => (fst e, h e)) l).
Proof.
  induction l as [| [k x] l IH]; intros Hbody Hd d0 Hfresh; simpl.
  - rewrite app_nil_r. reflexivity.
  - rewrite (Hbody d0 (k, x) (or_introl eq_refl)). simpl.
    simpl in Hd. apply andb_true_iff in Hd. destruct Hd as [Hk Hd].
    apply negb_true_iff in Hk.
    rewrite (@dict_set_fresh _ d0 k (h (k, x)) (Hfresh (k, x) (or_introl eq_refl))).
    rewrite IH; [rewrite <- app_assoc; reflexivity | | exact Hd |].
    + intros d e He. apply Hbody. right. exact He.
    + intros e He. rewrite existsb_app, (Hfresh e (or_intror He)). simpl.
      rewrite orb_false_r, String.eqb_sym.
      destruct (String.eqb (fst e) k) eqn:E; [| reflexivity].
      rewrite <- Hk. symmetry. apply existsb_exists. exists e. split; assumption.
Qed.

Lemma mapM_good (f : source_file) (elems : list json) :
  forallb is_string elems = true ->
  mapM (make_loose_regex_dyn f) elems
  = inr (map (fun s : string => make_loose_regex f s) (term_strings (JArr elems))).
Proof.
  induction elems as [| t elems IH]; simpl; [reflexivity |].
  intros H. apply andb_true_iff in H. destruct H as [Ht He].
  destruct t; try discriminate. simpl in *. rewrite (IH He). reflexivity.
Qed.

Lemma load_subs_good (f : source_file) (ss : list (string * json)) :
  forallb (fun e => good_terms (snd e)) ss = true ->
  distinct_keys ss = true ->
  foldM (fun (d : dict (list Pattern)) (e : string * json) =>
           let (subcat, terms) := e in
           ts <- iterate terms ;;
           pats <- mapM (make_loose_regex_dyn f) ts ;;
           ret (dict_set d subcat pats))
        ss []
  = inr (map (fun e => (fst e,
                        map (fun s : string => make_loose_regex f s)
                            (term_strings (snd e)))) ss).
Proof.
  intros Hg Hd.
  rewrite (@foldM_dict _ _ _
             (fun e => map (fun s : string => make_loose_regex f s)
                           (term_strings (snd e))) ss); auto.
  intros d [subcat terms] He.
  rewrite forallb_forall in Hg. specialize (Hg _ He). simpl in Hg.
  destruct terms; try discriminate. simpl.
  rewrite (mapM_good f _ Hg). reflexivity.
Qed.

Lemma triples_of_compiled (f : source_file) (cats : list (string * json)) :
  forallb (fun e => good_subs (snd e)) cats = true ->
  triples (map (fun entry : string * json =>
                  (fst entry,
                   match snd entry with
                   | JObj subs =>
                       map (fun e => (fst e,
                                      map (fun s : string => make_loose_regex f s)
                                          (term_strings (snd e)))) subs
                   | _ => []
                   end)) cats)
  = map (fun t : string * string * string =>
           (fst (fst t), snd (fst t), make_loose_regex f (snd t)))
        (terms_of (JObj cats)).
Proof.
  unfold triples, terms_of.
  induction cats as [| [cat subs] cats IH]; simpl; [reflexivity |].
  intros H. apply andb_true_iff in H. destruct H as [Hs Hc].
  rewrite map_app, (IH Hc). f_equal.
  destruct subs as [| | | | | ss]; try discriminate. clear.
  induction ss as [| [sub terms] ss IHs]; simpl; [reflexivity |].
  rewrite map_app, IHs. f_equal. rewrite !map_map. reflexivity.
Qed.

(** X7.  On a rules document of the expected shape (a mapping of mappings
    of lists of strings, no key twice in a mapping) [load_rules_json]
    returns a Rule Set whose triples are the terms of the document, each
    compiled by [make_loose_regex], under their category and subcategory and
    in document order. *)
Theorem X7_load_compiles_every_term_in_order (f : source_file) (raw : json) :
  well_formed raw = true ->
  distinct_everywhere raw = true ->
  exists rules,
    load_rules_json f raw = inr rules /\
    triples rules
    = map (fun t : string * string * string =>
             (fst (fst t), snd (fst t), make_loose_regex f (snd t)))
          (terms_of raw).
Proof.
  intros Hw Hd. destruct raw as [| | | | | cats]; try discriminate.
  simpl in Hw, Hd. apply andb_true_iff in Hd. destruct Hd as [Hdc Hds].
  eexists. split; [| apply (triples_of_compiled f cats Hw)].
  unfold load_rules_json. simpl.
  rewrite (@foldM_dict _ _ _
             (fun entry : string * json =>
                match snd entry with
                | JObj subs =>
                    map (fun e => (fst e,
                                   map (fun s : string => make_loose_regex f s)
                                       (term_strings (snd e)))) subs
                | _ => []
                end) cats); auto.
  intros d [category subs] He.
  rewrite forallb_forall in Hw, Hds.
  specialize (Hw _ He). specialize (Hds _ He). simpl in Hw, Hds.
  destruct subs as [| | | | | ss]; try discriminate. simpl.
  rewrite (load_subs_good f ss Hw Hds). reflexivity.
Qed.

Lemma X7_load_compiles_every_term_in_order_witness :
  exists rules,
    load_rules_json categorize_trans_py rules_uber = inr rules /\
    triples rules
    = map (fun t : string * string * string =>
             (fst (fst t), snd (fst t), make_loose_regex categorize_trans_py (snd t)))
          (terms_of rules_uber).
Proof.
  apply (@X7_load_compiles_every_term_in_order categorize_trans_py rules_uber).
  - reflexivity.
  - reflexivity.
Defined.

(** ** [normalize_desc] *)

Lemma rstrip_split (s : str) :
  exists ws, s = rstrip s ++ ws /\ Forall (fun c => is_space c = true) ws.
Proof.
  destruct (lstrip_split (rev s)) as (ws & E & Hws).
  exists (rev ws). split; [| apply Forall_rev, Hws].
  unfold rstrip. rewrite <- rev_app_distr, <- E, rev_involutive. reflexivity.
Qed.

Lemma last_char_rev (s : str) : last_char (rev s) = hd_error s.
Proof.
  destruct s as [| c s]; [reflexivity |]. simpl. apply before_snoc.
Qed.

Lemma strip_head (s : str) (c : ascii) :
  hd_error (strip s) = Some c -> is_space c = false.
Proof.
  unfold strip. destruct (rstrip_split (lstrip s)) as (ws & E & _).
  intros H. apply (lstrip_head s). rewrite E.
  destruct (rstrip (lstrip s)); [discriminate | exact H].
Qed.

Lemma strip_last (s : str) (c : ascii) :
  last_char (strip s) = Some c -> is_space c = false.
Proof.
  unfold strip, rstrip. rewrite last_char_rev. apply lstrip_head.
Qed.

Lemma strip_fixed (s : str) :
  (forall c, hd_error s = Some c -> is_space c = false) ->
  (forall c, last_char s = Some c -> is_space c = false) ->
  strip s = s.
Proof.
  intros Hh Hl. unfold strip, rstrip. rewrite (lstrip_fixed s Hh).
  rewrite lstrip_fixed; [apply rev_involutive |].
  intros c Hc. apply Hl. rewrite <- (rev_involutive s), last_char_rev. exact Hc.
Qed.

Lemma double_space_nonspace (c : ascii) (x : str) :
  is_space c = false -> double_space (c :: x) = double_space x.
Proof. intros H. destruct x; simpl; [reflexivity | rewrite H; reflexivity]. Qed.

Lemma double_space_flush (run : str) (c : ascii) (x : str) :
  is_space c = false -> double_space (flush run ++ c :: x) = double_space x.
Proof.
  intros H. rewrite <- (@double_space_nonspace c x H).
  destruct run as [| a [| b run]]; [reflexivity | |];
    cbn [flush app]; cbn [double_space]; rewrite H, andb_false_r; reflexivity.
Qed.

Lemma double_space_suffix (a b : str) :
  double_space (a ++ b) = false -> double_space b = false.
Proof.
  induction a as [| c a IH]; [auto |].
  simpl. destruct (a ++ b) as [| d r] eqn:E.
  - destruct a; [simpl in E; subst b; reflexivity | discriminate].
  - intros H. apply orb_false_iff in H. apply IH, H.
Qed.

Lemma double_space_prefix (a b : str) :
  double_space (a ++ b) = false -> double_space a = false.
Proof.
  induction a as [| c a IH]; [reflexivity |].
  simpl. destruct a as [| d a]; [reflexivity |].
  simpl app. intros H. apply orb_false_iff in H. destruct H as [H1 H2].
  rewrite H1. apply IH, H2.
Qed.

Lemma sub_space_runs_single (s run : str) :
  double_space (sub_space_runs s run) = false.
Proof.
  revert run. induction s as [| c s IH]; intros run; simpl.
  - destruct run as [| a [| b run]]; reflexivity.
  - destruct (is_space c) eqn:E; [apply IH |].
    rewrite (@double_space_flush run c _ E). apply IH.
Qed.

Lemma filter_spaces (ws : str) :
  Forall (fun c => is_space c = true) ws ->
  filter (fun c => negb (is_space c)) ws = [].
Proof. induction 1 as [| c ws Hc _ IH]; simpl; [| rewrite Hc]; auto. Qed.

Lemma flush_spaces (run : str) :
  Forall (fun c => is_space c = true) run ->
  Forall (fun c => is_space c = true) (flush run).
Proof.
  intros H. destruct run as [| a [| b run]]; [exact H | exact H |].
  repeat constructor.
Qed.

Lemma sub_space_runs_keeps (s : str) :
  forall run,
    Forall (fun c => is_space c = true) run ->
    filter (fun c => negb (is_space c)) (sub_space_runs s run)
    = filter (fun c => negb (is_space c)) s.
Proof.
  induction s as [| c s IH]; intros run Hrun; simpl.
  - apply filter_spaces, flush_spaces, Hrun.
  - destruct (is_space c) eqn:E; simpl.
    + apply IH. apply Forall_app. split; [exact Hrun | repeat constructor; exact E].
    + rewrite filter_app, (filter_spaces (flush_spaces Hrun)). simpl.
      rewrite E. simpl. rewrite IH by constructor. reflexivity.
Qed.

Lemma strip_keeps (s : str) :
  filter (fun c => negb (is_space c)) (strip s)
  = filter (fun c => negb (is_space c)) s.
Proof.
  unfold strip.
  destruct (lstrip_split s) as (ws & E & Hws).
  destruct (rstrip_split (lstrip s)) as (ws' & E' & Hws').
  rewrite E at 2. rewrite E' at 2.
  rewrite !filter_app, (filter_spaces Hws), (filter_spaces Hws'), app_nil_r.
  reflexivity.
Qed.

Lemma normalize_desc_shape (s : str) :
  (forall c, hd_error (normalize_desc s) = Some c -> is_space c = false) /\
  (forall c, last_char (normalize_desc s) = Some c -> is_space c = false) /\
  double_space (normalize_desc s) = false /\
  filter (fun c => negb (is_space c)) (normalize_desc s)
  = filter (fun c => negb (is_space c)) s.
Proof.
  unfold normalize_desc. repeat split.
  - apply strip_head.
  - apply strip_last.
  - unfold strip.
    destruct (lstrip_split (sub_space_runs s [])) as (ws & E & _).
    destruct (rstrip_split (lstrip (sub_space_runs s []))) as (ws' & E' & _).
    apply (@double_space_prefix _ ws'). rewrite <- E'.
    apply (@double_space_suffix ws). rewrite <- E.
    apply sub_space_runs_single.
  - rewrite strip_keeps. apply sub_space_runs_keeps. constructor.
Qed.

(** X8.  A normalised description neither begins nor ends with whitespace
    and has no two whitespace characters side by side; all other characters,
    punctuation included, are kept in order. *)
Theorem X8_normalize_desc_shape (s : str) :
  (forall c, hd_error (normalize_desc s) = Some c -> is_space c = false) /\
  (forall c, last_char (normalize_desc s) = Some c -> is_space c = false) /\
  double_space (normalize_desc s) = false /\
  filter (fun c => negb (is_space c)) (normalize_desc s)
  = filter (fun c => negb (is_space c)) s.
Proof. apply normalize_desc_shape. Qed.

Lemma sub_space_runs_fixed (x : str) :
  forall run,
    Forall (fun c => is_space c = true) run ->
    List.length run <= 1 ->
    double_space (run ++ x) = false ->
    sub_space_runs x run = run ++ x.
Proof.
  induction x as [| c x IH]; intros run Hrun Hlen Hd; simpl.
  - rewrite app_nil_r. destruct run as [| a [| b run]]; [reflexivity | reflexivity |].
    simpl in Hlen. lia.
  - destruct (is_space c) eqn:E.
    + destruct run as [| a run].
      * apply (IH [c]); [repeat constructor; exact E | simpl; lia | exact Hd].
      * destruct run; [| simpl in Hlen; lia].
        inversion Hrun as [| ? ? Ha _]; subst.
        simpl in Hd. rewrite Ha, E in Hd. discriminate.
    + assert (Hf : flush run = run).
      { destruct run as [| a [| b run]]; [reflexivity | reflexivity |].
        simpl in Hlen. lia. }
      rewrite Hf. f_equal. f_equal. apply (IH []); [constructor | simpl; lia |].
      simpl. apply (@double_space_suffix (run ++ [c])).
      rewrite <- app_assoc. exact Hd.
Qed.

(** X9.  [normalize_desc] is idempotent. *)
Theorem X9_normalize_desc_idempotent (s : str) :
  normalize_desc (normalize_desc s) = normalize_desc s.
Proof.
  destruct (normalize_desc_shape s) as (Hh & Hl & Hd & _).
  unfold normalize_desc at 1.
  rewrite (@sub_space_runs_fixed (normalize_desc s) []); [| constructor | simpl; lia | exact Hd].
  apply strip_fixed; assumption.
Qed.

(** ** [merchant_hint] *)

Lemma split_ws_word (w : str) :
  Forall (fun c => is_space c = false) w ->
  forall x cur, split_ws (w ++ x) cur = split_ws x (cur ++ w).
Proof.
  induction 1 as [| c w Hc _ IH]; intros x cur; simpl.
  - rewrite app_nil_r. reflexivity.
  - rewrite Hc, IH, <- app_assoc. reflexivity.
Qed.

Lemma split_ws_wf (s : str) :
  forall cur,
    Forall (fun c => is_space c = false) cur ->
    Forall (fun w => w <> [] /\ Forall (fun c => is_space c = false) w)
           (split_ws s cur).
Proof.
  induction s as [| c s IH]; intros cur Hcur; simpl.
  - destruct cur; simpl; constructor; [split; [discriminate | exact Hcur] | constructor].
  - destruct (is_space c) eqn:E.
    + destruct cur; simpl; [apply IH; constructor |].
      constructor; [split; [discriminate | exact Hcur] | apply IH; constructor].
    + apply IH. apply Forall_app. split; [exact Hcur | repeat constructor; exact E].
Qed.

Lemma split_ws_spaces (ws : str) :
  Forall (fun c => is_space c = true) ws ->
  forall x cur,
    ws <> [] ->
    split_ws (ws ++ x) cur = (if nonempty cur then [cur] else []) ++ split_ws x [].
Proof.
  induction 1 as [| c ws Hc Hws IH]; intros x cur Hne; [congruence |].
  simpl. rewrite Hc. destruct ws as [| d ws].
  - simpl. destruct (nonempty cur); reflexivity.
  - rewrite (IH x [] ltac:(discriminate)). simpl.
    destruct (nonempty cur); reflexivity.
Qed.

Lemma split_join (ws : list str) :
  Forall (fun w => w <> [] /\ Forall (fun c => is_space c = false) w) ws ->
  split_ws (join_str " " ws) [] = ws.
Proof.
  induction 1 as [| w ws [Hne Hw] Hws IH]; [reflexivity |].
  destruct ws as [| w' ws].
  - simpl. rewrite <- (app_nil_r w) at 1. rewrite (split_ws_word Hw). simpl.
    destruct w; [congruence | reflexivity].
  - change (join_str " " (w :: w' :: ws))
      with (w ++ [" "%char] ++ join_str " " (w' :: ws)).
    rewrite (split_ws_word Hw).
    rewrite (@split_ws_spaces [" "%char] ltac:(repeat constructor) _ ([] ++ w))
      by discriminate.
    rewrite IH. simpl. destruct w; [congruence | reflexivity].
Qed.

Lemma Forall_firstn {A : Type} (P : A -> Prop) (n : nat) (l : list A) :
  Forall P l -> Forall P (firstn n l).
Proof.
  intros H. revert n. induction H; intros [| n]; simpl; constructor; auto.
Qed.

Lemma merchant_hint_words (desc : str) :
  split_ws (merchant_hint desc) [] = firstn 5 (split_ws desc []).
Proof.
  unfold merchant_hint. apply split_join, Forall_firstn, split_ws_wf. constructor.
Qed.

(** X10.  The words of a merchant hint are the first five words of the
    description, hence at most five; taking the hint of a hint changes
    nothing. *)
Theorem X10_merchant_hint_first_five_words (desc : str) :
  split_ws (merchant_hint desc) [] = firstn 5 (split_ws desc []) /\
  List.length (split_ws (merchant_hint desc) []) <= 5 /\
  merchant_hint (merchant_hint desc) = merchant_hint desc.
Proof.
  pose proof (merchant_hint_words desc) as H. repeat split.
  - exact H.
  - rewrite H. apply firstn_le_length.
  - unfold merchant_hint at 1. rewrite H, firstn_firstn. reflexivity.
Qed.

Lemma split_ws_flush (run : str) :
  Forall (fun c => is_space c = true) run ->
  forall x cur, split_ws (flush run ++ x) cur = split_ws (run ++ x) cur.
Proof.
  intros H x cur. destruct run as [| a [| b run]]; [reflexivity | reflexivity |].
  rewrite (@split_ws_spaces (flush (a :: b :: run)) (flush_spaces H) x cur)
    by discriminate.
  rewrite (@split_ws_spaces (a :: b :: run) H x cur) by discriminate.
  reflexivity.
Qed.

Lemma split_ws_sub (s : str) :
  forall run cur,
    Forall (fun c => is_space c = true) run ->
    split_ws (sub_space_runs s run) cur = split_ws (run ++ s) cur.
Proof.
  induction s as [| c s IH]; intros run cur Hrun; simpl.
  - rewrite <- (app_nil_r (flush run)). apply split_ws_flush, Hrun.
  - destruct (is_space c) eqn:E.
    + rewrite IH, <- app_assoc; [reflexivity |].
      apply Forall_app. split; [exact Hrun | repeat constructor; exact E].
    + rewrite (split_ws_flush Hrun).
      destruct run as [| a run].
      * simpl. rewrite E. apply (IH [] _ (Forall_nil _)).
      * rewrite !(@split_ws_spaces (a :: run) Hrun) by discriminate.
        f_equal. simpl. rewrite E. apply (IH [] _ (Forall_nil _)).
Qed.

Lemma split_ws_lstrip (s : str) : split_ws (lstrip s) [] = split_ws s [].
Proof.
  induction s as [| c s IH]; simpl; [reflexivity |].
  destruct (is_space c) eqn:E; [exact IH |]. simpl. rewrite E. reflexivity.
Qed.

Lemma split_ws_trailing (s ws : str) :
  Forall (fun c => is_space c = true) ws ->
  forall cur, split_ws (s ++ ws) cur = split_ws s cur.
Proof.
  intros Hws. induction s as [| c s IH]; intros cur; simpl.
  - destruct ws as [| a ws]; [reflexivity |].
    rewrite <- (app_nil_r (a :: ws)).
    rewrite (@split_ws_spaces (a :: ws) Hws [] cur) by discriminate.
    simpl. rewrite app_nil_r. reflexivity.
  - destruct (is_space c); [destruct (nonempty cur) |]; rewrite IH; reflexivity.
Qed.

Lemma split_ws_normalize (s : str) :
  split_ws (normalize_desc s) [] = split_ws s [].
Proof.
  unfold normalize_desc, strip.
  destruct (rstrip_split (lstrip (sub_space_runs s []))) as (ws & E & Hws).
  rewrite <- (split_ws_trailing (rstrip (lstrip (sub_space_runs s []))) Hws).
  rewrite <- E, split_ws_lstrip. apply (split_ws_sub s [] (Forall_nil _)).
Qed.

(** X11.  As [main] computes it, on the normalised description, the
    merchant hint is the one of the raw description: normalisation does not
    change the words. *)
Theorem X11_merchant_hint_after_normalize (desc : str) :
  split_ws (normalize_desc desc) [] = split_ws desc [] /\
  merchant_hint (normalize_desc desc) = merchant_hint desc.
Proof.
  split; [apply split_ws_normalize |].
  unfold merchant_hint. rewrite split_ws_normalize. reflexivity.
Qed.

(** ** [first_txn_row] *)

Lemma date_star_skip (p : list DateRe.node) (s : str) :
  DateRe.matches p s = true -> DateRe.matches (DateRe.AnySpace :: p) s = true.
Proof.
  intros H. destruct s as [| d s]; [exact H |].
  simpl. destruct (is_space d); [| exact H].
  match goal with |- (if ?b then _ else _) = _ => destruct b end;
    [reflexivity | exact H].
Qed.

Lemma date_star_intro (p : list DateRe.node) (ws s : str) :
  Forall (fun c => is_space c = true) ws ->
  DateRe.matches p s = true ->
  DateRe.matches (DateRe.AnySpace :: p) (ws ++ s) = true.
Proof.
  intros Hws H. induction Hws as [| c ws Hc _ IH]; [apply date_star_skip, H |].
  simpl in *. rewrite Hc, IH. reflexivity.
Qed.

Lemma date_star_inv (p : list DateRe.node) (s : str) :
  DateRe.matches (DateRe.AnySpace :: p) s = true ->
  exists ws s',
    s = ws ++ s' /\ Forall (fun c => is_space c = true) ws /\
    DateRe.matches p s' = true.
Proof.
  induction s as [| d s IH]; intros H.
  - exists [], []. repeat split; [constructor | exact H].
  - simpl in H. destruct (is_space d) eqn:E.
    + match type of H with
      | (if ?b then _ else _) = _ => destruct b eqn:Eb
      end.
      * destruct (IH Eb) as (ws & s' & -> & Hws & Hp).
        exists (d :: ws), s'. repeat split; [constructor; assumption | exact Hp].
      * exists [], (d :: s). repeat split; [constructor | exact H].
    + exists [], (d :: s). repeat split; [constructor | exact H].
Qed.

Lemma date_digit_inv (p : list DateRe.node) (s : str) :
  DateRe.matches (DateRe.Digit :: p) s = true ->
  exists d s', s = d :: s' /\ is_digit d = true /\ DateRe.matches p s' = true.
Proof.
  destruct s as [| d s]; cbn [DateRe.matches]; [discriminate |].
  destruct (is_digit d) eqn:E; [eauto | discriminate].
Qed.

Lemma date_char_inv (c : ascii) (p : list DateRe.node) (s : str) :
  DateRe.matches (DateRe.Char c :: p) s = true ->
  exists s', s = c :: s' /\ DateRe.matches p s' = true.
Proof.
  destruct s as [| d s]; cbn [DateRe.matches]; [discriminate |].
  destruct (Ascii.eqb c d) eqn:E; [| discriminate].
  apply Ascii.eqb_eq in E. subst d. eauto.
Qed.

Lemma date_digit_intro (p : list DateRe.node) (d : ascii) (s : str) :
  is_digit d = true -> DateRe.matches p s = true ->
  DateRe.matches (DateRe.Digit :: p) (d :: s) = true.
Proof. intros Hd H. cbn [DateRe.matches]. rewrite Hd. exact H. Qed.

Lemma date_char_intro (c : ascii) (p : list DateRe.node) (s : str) :
  DateRe.matches p s = true ->
  DateRe.matches (DateRe.Char c :: p) (c :: s) = true.
Proof. intros H. cbn [DateRe.matches]. rewrite Ascii.eqb_refl. exact H. Qed.

(** X12.  The lines that [first_txn_row] takes for transactions are exactly
    those made of optional whitespace, two digits, a slash, two digits, a
    slash, four digits, optional whitespace and a comma, followed by
    anything. *)
Theorem X12_date_start_lines (line : str) :
  DateRe.matches date_start line = true <->
  exists ws mm dd yyyy ws' rest,
    line = ws ++ mm ++ "/"%char :: dd ++ "/"%char :: yyyy ++ ws' ++ ","%char :: rest /\
    Forall (fun c => is_space c = true) ws /\
    Forall (fun c => is_space c = true) ws' /\
    List.length mm = 2 /\ List.length dd = 2 /\ List.length yyyy = 4 /\
    Forall (fun c => is_digit c = true) (mm ++ dd ++ yyyy).
Proof.
  unfold date_start. split.
  - intros H.
    apply date_star_inv in H. destruct H as (ws & s0 & -> & Hws & H).
    apply date_digit_inv in H. destruct H as (m1 & s1 & -> & Hm1 & H).
    apply date_digit_inv in H. destruct H as (m2 & s2 & -> & Hm2 & H).
    apply date_char_inv in H. destruct H as (s3 & -> & H).
    apply date_digit_inv in H. destruct H as (d1 & s4 & -> & Hd1 & H).
    apply date_digit_inv in H. destruct H as (d2 & s5 & -> & Hd2 & H).
    apply date_char_inv in H. destruct H as (s6 & -> & H).
    apply date_digit_inv in H. destruct H as (y1 & s7 & -> & Hy1 & H).
    apply date_digit_inv in H. destruct H as (y2 & s8 & -> & Hy2 & H).
    apply date_digit_inv in H. destruct H as (y3 & s9 & -> & Hy3 & H).
    apply date_digit_inv in H. destruct H as (y4 & s10 & -> & Hy4 & H).
    apply date_star_inv in H. destruct H as (ws' & s11 & -> & Hws' & H).
    apply date_char_inv in H. destruct H as (rest & -> & _).
    exists ws, [m1; m2], [d1; d2], [y1; y2; y3; y4], ws', rest.
    repeat split; auto. simpl. repeat constructor; assumption.
  - intros (ws & mm & dd & yyyy & ws' & rest & -> & Hws & Hws' & Hm & Hd & Hy & Hdig).
    destruct mm as [| m1 [| m2 [| ? ?]]]; try discriminate.
    destruct dd as [| d1 [| d2 [| ? ?]]]; try discriminate.
    destruct yyyy as [| y1 [| y2 [| y3 [| y4 [| ? ?]]]]]; try discriminate.
    simpl in Hdig.
    repeat match goal with
           | H : Forall _ (_ :: _) |- _ => inversion H; clear H; subst
           end.
    apply date_star_intro; [exact Hws |]. cbn [app].
    repeat (first [apply date_digit_intro; [assumption |] | apply date_char_intro]).
    apply date_star_intro; [exact Hws' |].
    apply date_char_intro. reflexivity.
Qed.

Lemma first_match_spec (lines : list str) :
  forall i,
    match first_match lines i with
    | Some k =>
        exists j line,
          k = i + j /\ nth_error lines j = Some line /\
          DateRe.matches date_start line = true /\
          forall j' l, j' < j -> nth_error lines j' = Some l ->
                       DateRe.matches date_start l = false
    | None => forall l, In l lines -> DateRe.matches date_start l = false
    end.
Proof.
  induction lines as [| line lines IH]; intros i; cbn [first_match].
  - intros l [].
  - destruct (DateRe.matches date_start line) eqn:E.
    + exists 0, line. repeat split; [lia | exact E |]. intros j' l Hj. lia.
    + specialize (IH (S i)). destruct (first_match lines (S i)) as [k |].
      * destruct IH as (j & l & -> & Hn & Hm & Hbefore).
        exists (S j), l. repeat split; [lia | exact Hn | exact Hm |].
        intros [| j'] l' Hj Hl'; simpl in Hl'.
        -- injection Hl' as <-. exact E.
        -- apply (Hbefore j' l'); [lia | exact Hl'].
      * intros l [<- | Hl]; [exact E | apply IH, Hl].
Qed.

(** X13.  [first_txn_row] returns the index of the first line that starts
    with a date, every line before it does not; when no line does, it
    returns 0. *)
Theorem X13_first_txn_row_is_first_date_line (lines : list str) :
  (exists line,
      nth_error lines (first_txn_row lines) = Some line /\
      DateRe.matches date_start line = true /\
      forall j l, j < first_txn_row lines -> nth_error lines j = Some l ->
                  DateRe.matches date_start l = false) \/
  ((forall l, In l lines -> DateRe.matches date_start l = false) /\
   first_txn_row lines = 0).
Proof.
  unfold first_txn_row. pose proof (first_match_spec lines 0) as H.
  destruct (first_match lines 0) as [k |].
  - left. destruct H as (j & line & -> & Hn & Hm & Hb). simpl.
    exists line. repeat split; assumption.
  - right. split; [exact H | reflexivity].
Qed.

(** ** Normalising a description and matching it *)

Lemma space_not_word (c : ascii) : is_space c = true -> is_word c = false.
Proof.
  intros H. apply negb_true_iff.
  generalize (forall_chars (fun c => implb (is_space c) (negb (is_word c)))).
  intros G. specialize (G ltac:(vm_compute; reflexivity) c).
  rewrite H in G. exact G.
Qed.

Lemma literal_not_space (l d : ascii) :
  is_space l = false -> is_space d = true -> eq_I l d = false.
Proof.
  intros Hl Hd. destruct (eq_I l d) eqn:E; [| reflexivity].
  apply eq_I_space in E. congruence.
Qed.

Lemma matchable_literal (c : ascii) (q : Pattern) (prev : option ascii) (s : str) :
  matchable (Literal c :: q) prev s =
  match s with
  | d :: s' => eq_I c d && matchable q (Some d) s'
  | [] => false
  end.
Proof.
  unfold matchable. destruct s as [| d s]; simpl; [reflexivity |].
  destruct (eq_I c d); [| reflexivity].
  destruct (match_here q (Some d) s); reflexivity.
Qed.

Lemma matchable_star (q : Pattern) (prev : option ascii) (s : str) :
  matchable (NotWordStar :: q) prev s =
  match s with
  | d :: s' =>
      if negb (is_word d)
      then matchable (NotWordStar :: q) (Some d) s' || matchable q prev s
      else matchable q prev s
  | [] => matchable q prev s
  end.
Proof.
  unfold matchable. rewrite star_eq. destruct s as [| d s]; [reflexivity |].
  destruct (negb (is_word d)); [| reflexivity].
  destruct (match_here (NotWordStar :: q) (Some d) s); reflexivity.
Qed.

Lemma matchable_behind (cs : charset) (q : Pattern) (prev : option ascii) (s : str) :
  matchable (NotBehind cs :: q) prev s =
  match prev with
  | Some c => negb (in_charset_I cs c) && matchable q prev s
  | None => matchable q prev s
  end.
Proof.
  unfold matchable. simpl. destruct prev as [c |]; [| reflexivity].
  destruct (in_charset_I cs c); reflexivity.
Qed.

Lemma matchable_ahead (cs : charset) (q : Pattern) (prev : option ascii) (s : str) :
  matchable (NotAhead cs :: q) prev s =
  match s with
  | d :: _ => negb (in_charset_I cs d) && matchable q prev s
  | [] => matchable q prev s
  end.
Proof.
  unfold matchable. simpl. destruct s as [| d s]; [reflexivity |].
  destruct (in_charset_I cs d); reflexivity.
Qed.

Lemma occurs_from_search (p : Pattern) (s : str) :
  forall prev i,
    occurs_from p prev s
    = match search_from p prev s i with Some _ => true | None => false end.
Proof.
  induction s as [| d s IH]; intros prev i; simpl; unfold matchable.
  - destruct (match_here p prev []); reflexivity.
  - destruct (match_here p prev (d :: s)); [reflexivity |]. simpl. apply IH.
Qed.

Lemma sim_weaken (b : bool) (s s' : str) : sim b s s' -> sim true s s'.
Proof.
  intros H. destruct H.
  - apply sim_nil.
  - apply sim_char; assumption.
  - apply sim_drop_l; [assumption |]. apply sim_drop_r; assumption.
  - apply sim_drop_l; assumption.
  - apply sim_drop_r; assumption.
  - apply sim_drop_l; assumption.
  - apply sim_drop_r; assumption.
Qed.

Lemma sim_refl (s : str) : sim false s s.
Proof.
  induction s as [| c s IH]; [apply sim_nil |].
  destruct (is_space c) eqn:E.
  - apply sim_both; [exact E | exact E | apply (sim_weaken IH)].
  - apply sim_char; assumption.
Qed.

Lemma sim_skip_run (ws x y : str) :
  Forall (fun c => is_space c = true) ws -> sim true x y -> sim true (ws ++ x) y.
Proof.
  intros Hws H. induction Hws as [| c ws Hc _ IH]; [exact H |].
  simpl. apply sim_drop_l; assumption.
Qed.

Lemma sim_lstrip (x : str) : sim true x (lstrip x).
Proof.
  destruct (lstrip_split x) as (ws & E & Hws).
  rewrite E at 1. apply sim_skip_run; [exact Hws | apply (sim_weaken (sim_refl _))].
Qed.

Lemma sim_trailing (y ws : str) :
  Forall (fun c => is_space c = true) ws -> sim false (y ++ ws) y.
Proof.
  intros Hws. induction y as [| c y IH]; simpl.
  - destruct Hws as [| c ws Hc Hws]; [apply sim_nil |].
    apply sim_end_l; [exact Hc |].
    rewrite <- (app_nil_r ws). apply sim_skip_run; [exact Hws | apply sim_nil].
  - destruct (is_space c) eqn:E.
    + apply sim_both; [exact E | exact E | apply (sim_weaken IH)].
    + apply sim_char; assumption.
Qed.

Lemma sim_rstrip (x : str) : sim true x (rstrip x).
Proof.
  destruct (rstrip_split x) as (ws & E & Hws).
  rewrite E at 1. apply (sim_weaken (sim_trailing _ Hws)).
Qed.

Lemma sim_sub_space_runs (d : str) :
  forall run,
    Forall (fun c => is_space c = true) run ->
    sim false (run ++ d) (sub_space_runs d run).
Proof.
  induction d as [| c d IH]; intros run Hrun; simpl.
  - rewrite app_nil_r. destruct Hrun as [| a run Ha Hrun]; [apply sim_nil |].
    destruct Hrun as [| b run Hb Hrun]; [apply sim_refl |].
    cbn [flush]. apply sim_both; [exact Ha | reflexivity |].
    apply sim_drop_l; [exact Hb |].
    rewrite <- (app_nil_r run).
    apply sim_skip_run; [exact Hrun | apply sim_nil].
  - destruct (is_space c) eqn:E.
    + replace (run ++ c :: d) with ((run ++ [c]) ++ d)
        by (rewrite <- app_assoc; reflexivity).
      apply IH. apply Forall_app. split; [exact Hrun | repeat constructor; exact E].
    + pose proof (@sim_char true c _ _ E (IH [] (Forall_nil _))) as Hc.
      simpl in Hc.
      destruct Hrun as [| a run Ha Hrun].
      * simpl. apply sim_char; [exact E | apply (IH [] (Forall_nil _))].
      * destruct Hrun as [| b run Hb Hrun].
        -- simpl. apply sim_both; [exact Ha | exact Ha | exact Hc].
        -- cbn [flush app].
           apply sim_both; [exact Ha | reflexivity |].
           apply sim_drop_l; [exact Hb |].
           apply sim_skip_run; [exact Hrun | exact Hc].
Qed.

Lemma sim_star (c : ascii) (q : Pattern) :
  is_space c = false ->
  (forall x x', sim false x x' ->
                matchable (Literal c :: q) None x = matchable (Literal c :: q) None x') ->
  forall b s s',
    sim b s s' ->
    forall prev prev',
      matchable (NotWordStar :: Literal c :: q) prev s
      = matchable (NotWordStar :: Literal c :: q) prev' s'.
Proof.
  intros Hc F.
  assert (Fp : forall prev prev' x x',
             sim false x x' ->
             matchable (Literal c :: q) prev x = matchable (Literal c :: q) prev' x').
  { intros prev prev' x x' H. rewrite !matchable_literal.
    specialize (F x x' H). rewrite !matchable_literal in F. exact F. }
  assert (Sp : forall prev d x,
             is_space d = true ->
             matchable (NotWordStar :: Literal c :: q) prev (d :: x)
             = matchable (NotWordStar :: Literal c :: q) (Some d) x).
  { intros prev d x Hd. rewrite (matchable_star _ prev (d :: x)).
    rewrite (space_not_word d Hd). cbn [negb].
    rewrite (matchable_literal c q prev (d :: x)).
    rewrite (@literal_not_space _ _ Hc Hd). simpl. apply orb_false_r. }
  assert (Nil : forall prev prev',
             matchable (NotWordStar :: Literal c :: q) prev []
             = matchable (NotWordStar :: Literal c :: q) prev' []).
  { intros prev prev'. rewrite !matchable_star, !matchable_literal. reflexivity. }
  induction 1 as [b | b c0 s s' Hc0 H IH | c1 c2 s s' H1 H2 H IH
                  | c1 s H1 H IH | c1 s H1 H IH | c1 s s' H1 H IH | c1 s s' H1 H IH];
    intros prev prev'.
  - apply Nil.
  - rewrite (matchable_star _ prev (c0 :: s)), (matchable_star _ prev' (c0 :: s')).
    rewrite (IH (Some c0) (Some c0)).
    rewrite (Fp prev prev' (c0 :: s) (c0 :: s') (@sim_char false c0 s s' Hc0 H)).
    reflexivity.
  - rewrite (Sp prev c1 s H1), (Sp prev' c2 s' H2). apply IH.
  - rewrite (Sp prev c1 s H1). apply IH.
  - rewrite (Sp prev' c1 s H1). apply IH.
  - rewrite (Sp prev c1 s H1). apply IH.
  - rewrite (Sp prev' c1 s' H1). apply IH.
Qed.

Lemma sim_matchable (p : Pattern) :
  ws_blind p ->
  forall s s',
    sim false s s' ->
    forall prev prev',
      (prev = prev' \/ (blank prev /\ blank prev')) ->
      matchable p prev s = matchable p prev' s'.
Proof.
  induction p as [| n p IH]; intros Hp s s' Hs prev prev' Hprev; [reflexivity |].
  destruct n as [l | | cs | cs]; simpl in Hp; destruct Hp as [Hn Hp].
  - rewrite !matchable_literal.
    inversion Hs as [b | b c0 x x' Hc0 H | c1 c2 x x' H1 H2 H
                     | c1 x H1 H | c1 x H1 H | |]; subst; try reflexivity.
    + rewrite (IH Hp x x' H (Some c0) (Some c0) (or_introl eq_refl)). reflexivity.
    + rewrite (@literal_not_space _ _ Hn H1), (@literal_not_space _ _ Hn H2). reflexivity.
    + rewrite (@literal_not_space _ _ Hn H1). reflexivity.
    + rewrite (@literal_not_space _ _ Hn H1). reflexivity.
  - destruct Hn as (c & q & ->). simpl in Hp. destruct Hp as [Hc Hq].
    apply (@sim_star c q Hc) with (b := false); [| exact Hs].
    intros x x' Hx. apply (IH (conj Hc Hq) x x' Hx None None (or_introl eq_refl)).
  - rewrite !matchable_behind.
    rewrite (IH Hp s s' Hs prev prev' Hprev).
    destruct Hprev as [<- | [Hb Hb']]; [reflexivity |].
    destruct prev as [c |], prev' as [c' |]; simpl in Hb, Hb';
      rewrite ?(Hn _ Hb), ?(Hn _ Hb'); reflexivity.
  - rewrite !matchable_ahead.
    rewrite (IH Hp s s' Hs prev prev' Hprev).
    inversion Hs as [b | b c0 x x' Hc0 H | c1 c2 x x' H1 H2 H
                     | c1 x H1 H | c1 x H1 H | |]; subst; try reflexivity.
    + rewrite (Hn _ H1), (Hn _ H2). reflexivity.
    + rewrite (Hn _ H1). reflexivity.
    + rewrite (Hn _ H1). reflexivity.
Qed.

Lemma sim_occurs (cs : charset) (l : ascii) (q : Pattern) :
  ws_blind (NotBehind cs :: Literal l :: q) ->
  forall b s s',
    sim b s s' ->
    forall prev prev',
      (if b then blank prev /\ blank prev'
       else prev = prev' \/ (blank prev /\ blank prev')) ->
      occurs_from (NotBehind cs :: Literal l :: q) prev s
      = occurs_from (NotBehind cs :: Literal l :: q) prev' s'.
Proof.
  intros Hp. set (p := NotBehind cs :: Literal l :: q) in *.
  assert (Hl : is_space l = false) by (simpl in Hp; tauto).
  assert (M0 : forall prev, matchable p prev [] = false).
  { intros prev. unfold p. rewrite matchable_behind, matchable_literal.
    destruct prev; [apply andb_false_r | reflexivity]. }
  assert (Msp : forall prev d x, is_space d = true -> matchable p prev (d :: x) = false).
  { intros prev d x Hd. unfold p. rewrite matchable_behind, matchable_literal.
    rewrite (@literal_not_space _ _ Hl Hd). destruct prev; [apply andb_false_r | reflexivity]. }
  assert (O0 : forall prev, occurs_from p prev [] = false).
  { intros prev. simpl. rewrite M0. reflexivity. }
  assert (Osp : forall prev d x,
             is_space d = true -> occurs_from p prev (d :: x) = occurs_from p (Some d) x).
  { intros prev d x Hd. simpl. rewrite (Msp prev d x Hd). reflexivity. }
  induction 1 as [b | b c0 s s' Hc0 H IH | c1 c2 s s' H1 H2 H IH
                  | c1 s H1 H IH | c1 s H1 H IH | c1 s s' H1 H IH | c1 s s' H1 H IH];
    intros prev prev' Hprev.
  - rewrite !O0. reflexivity.
  - simpl. rewrite (IH (Some c0) (Some c0) (or_introl eq_refl)).
    rewrite (@sim_matchable p Hp (c0 :: s) (c0 :: s') (@sim_char false c0 s s' Hc0 H) prev prev');
      [reflexivity |].
    destruct b; [right; exact Hprev | exact Hprev].
  - rewrite (Osp prev c1 s H1), (Osp prev' c2 s' H2). apply IH. split; assumption.
  - rewrite (Osp prev c1 s H1), (O0 prev'), <- (O0 None).
    apply IH. split; [exact H1 | exact I].
  - rewrite (Osp prev' c1 s H1), (O0 prev), <- (O0 None).
    apply IH. split; [exact I | exact H1].
  - rewrite (Osp prev c1 s H1). apply IH. split; [exact H1 | apply Hprev].
  - rewrite (Osp prev' c1 s' H1). apply IH. split; [apply Hprev | exact H1].
Qed.

Lemma word_not_space (c : ascii) : is_word c = true -> is_space c = false.
Proof.
  intros H. destruct (is_space c) eqn:E; [| reflexivity].
  apply space_not_word in E. congruence.
Qed.

Lemma ws_blind_escape (tok : str) (q : Pattern) :
  Forall (fun c => is_word c = true) tok -> ws_blind q -> ws_blind (escape tok ++ q).
Proof.
  induction 1 as [| c tok Hc _ IH]; intros Hq; simpl; [exact Hq |].
  split; [apply word_not_space, Hc | apply IH, Hq].
Qed.

Lemma ws_blind_body (toks : list str) (q : Pattern) :
  Forall token_wf toks -> ws_blind q ->
  ws_blind (join [NotWordStar] (map escape toks) ++ q).
Proof.
  induction 1 as [| tok toks [Hne Hw] Hwf IH]; intros Hq; [exact Hq |].
  destruct toks as [| t toks].
  - simpl. apply ws_blind_escape; assumption.
  - change (join [NotWordStar] (map escape (tok :: t :: toks)))
      with (escape tok ++ [NotWordStar] ++ join [NotWordStar] (map escape (t :: toks))).
    rewrite <- !app_assoc. apply ws_blind_escape; [exact Hw |].
    cbn [app ws_blind]. split; [| apply IH, Hq].
    inversion Hwf as [| ? ? [Hne' _] _]; subst.
    destruct t as [| c t]; [congruence |].
    destruct (join_head c t toks q) as (q' & Hj). exists c, q'. exact Hj.
Qed.

Lemma guard_blind (f : source_file) (d : ascii) :
  is_space d = true -> in_charset_I (guard_class f) d = false.
Proof.
  intros H. rewrite guard_class_spec.
  apply nonword_not_alnum, space_not_word, H.
Qed.

Lemma compiled_blind (f : source_file) (T : str) :
  tokens_of (strip T) <> [] ->
  ws_blind (make_loose_regex f T) /\
  exists l q, make_loose_regex f T = NotBehind (guard_class f) :: Literal l :: q.
Proof.
  intros H. split.
  - unfold make_loose_regex. cbv zeta.
    pose proof (tokens_of_wf (strip T)) as Hwf.
    destruct (tokens_of (strip T)) as [| tok toks]; [congruence |].
    cbn [app ws_blind]. split; [apply guard_blind |].
    apply ws_blind_body; [exact Hwf |].
    simpl. split; [apply guard_blind | exact I].
  - destruct (guarded_shape f T H) as (c & q & E).
    exists c, (q ++ [NotAhead (guard_class f)]). exact E.
Qed.

Lemma occurs_normalize (f : source_file) (T desc : str) :
  tokens_of (strip T) <> [] ->
  occurs_from (make_loose_regex f T) None (normalize_desc desc)
  = occurs_from (make_loose_regex f T) None desc.
Proof.
  intros H. destruct (compiled_blind f T H) as (Hb & l & q & E).
  rewrite E in *. unfold normalize_desc, strip. symmetry.
  rewrite (@sim_occurs _ l q Hb true desc (sub_space_runs desc [])
             (sim_weaken (sim_sub_space_runs desc (Forall_nil _))) None None (conj I I)).
  rewrite (@sim_occurs _ l q Hb true _ _ (sim_lstrip (sub_space_runs desc []))
             None None (conj I I)).
  apply (@sim_occurs _ l q Hb true _ _ (sim_rstrip _) None None (conj I I)).
Qed.

(** X14.  Normalising a description, as [main] does before matching, never
    changes whether a rule term with at least one token matches it (the
    offsets of the match may change). *)
Theorem X14_normalising_keeps_matches (f : source_file) (T desc : str) :
  tokens_of (strip T) <> [] ->
  (search (make_loose_regex f T) (normalize_desc desc) = None <->
   search (make_loose_regex f T) desc = None).
Proof.
  intros H. pose proof (@occurs_normalize f T desc H) as E.
  unfold search.
  rewrite (occurs_from_search _ (normalize_desc desc) None 0) in E.
  rewrite (occurs_from_search _ desc None 0) in E.
  destruct (search_from (make_loose_regex f T) None (normalize_desc desc) 0),
           (search_from (make_loose_regex f T) None desc 0);
    split; intros; congruence.
Qed.

Lemma X14_normalising_keeps_matches_witness :
  search (make_loose_regex main_py "whole foods")
         (normalize_desc "  WHOLE   FOODS  MKT ") = None <->
  search (make_loose_regex main_py "whole foods") "  WHOLE   FOODS  MKT " = None.
Proof.
  apply (@X14_normalising_keeps_matches main_py "whole foods" "  WHOLE   FOODS  MKT ").
  vm_compute. discriminate.
Defined.

(** The span may change, and with it the result on a tie. *)
Example normalising_can_change_the_winner :
  best_match "a  b xyz"
             [("A", [("x", [make_loose_regex main_py "xyz"])]);
              ("B", [("y", [make_loose_regex main_py "a b"])])] = ("B", "y") /\
  normalize_desc "a  b xyz" = list_ascii_of_string "a b xyz" /\
  best_match (normalize_desc "a  b xyz")
             [("A", [("x", [make_loose_regex main_py "xyz"])]);
              ("B", [("y", [make_loose_regex main_py "a b"])])] = ("A", "x").
Proof. repeat split; vm_compute; reflexivity. Qed.

(** ** The length of a match *)

Lemma spaced_length (toks : list str) (v : str) :
  spaced toks v -> List.length (List.concat toks) <= List.length v.
Proof.
  induction 1 as [tok v Hs | tok v sep toks rest Hs _ _ IH]; simpl.
  - rewrite app_nil_r, (Forall2_length Hs). lia.
  - rewrite !length_app, (Forall2_length Hs). lia.
Qed.

(** X15.  A match of a term's matcher spans at least as many characters as
    the term has word characters. *)
Theorem X15_span_covers_the_word_characters
        (f : source_file) (T desc : str) (a b : nat) :
  search (make_loose_regex f T) desc = Some (a, b) ->
  List.length (filter is_word (strip T)) <= b - a.
Proof.
  intros H. apply search_from_sound in H.
  destruct H as (pre & post & n & -> & -> & -> & Hm).
  destruct (compiled_inv _ _ _ _ Hm) as (v & s' & -> & Hv & ->).
  apply spaced_length in Hv. unfold units in Hv.
  rewrite <- tokens_concat.
  destruct (tokens_of (strip T)) as [| tok toks]; simpl in *; lia.
Qed.

Lemma X15_span_covers_the_word_characters_witness :
  List.length (filter is_word (strip "whole foods")) <= 13 - 2.
Proof.
  apply (@X15_span_covers_the_word_characters
           main_py "whole foods" "x WHOLE-foods mkt" 2 13).
  vm_compute. reflexivity.
Defined.
